(** * EnterpriseGadgetTracker: a shallow embedding and its properties

    The TypeScript class [EnterpriseGadgetTracker] keeps a [Map] from gadget
    ids to gadget objects, an array of history entries and a version number.
    Gadgets are JavaScript objects: the map holds references to them,
    [updateGadget] writes through such a reference, and [recordHistory]
    stores a spread copy.  The embedding therefore has an explicit object
    heap; the map and the history hold addresses into it.

    A price is a JavaScript number: an IEEE 754 double, here a primitive
    float, with its NaN, its infinities and its two zeros.  Dates are epoch
    milliseconds and the version is an integer, both in [Z].  The clock
    ([new Date()]) and the random source
    ([crypto.randomBytes]) are explicit arguments of the operations that
    read them.  Node's [crypto], [JSON] and [Date] text conversions are not
    part of the repository: they are the fields of the class [Runtime]. *)

From Stdlib Require Import ZArith List Lia Permutation Sorted Floats.
From stdpp Require Import base option list strings.

(** ** The JavaScript runtime the class is written against *)

Inductive Action := ADD | UPDATE | DELETE.

(** A [number]-typed property of an object or of a parsed JSON value: a
    double, or [null], which is what [JSON.parse] reads where
    [JSON.stringify] wrote a number that is not finite. *)
Inductive JsNumber :=
  | Num (x : float)
  | Null.

(** [JSON.stringify] followed by [JSON.parse] on such a property: NaN and
    the infinities are written as [null], negative zero is written as [0],
    and every other double comes back as it is. *)
Definition json_number (v : JsNumber) : JsNumber :=
  match v with
  | Num x => if is_finite x then Num (if (x =? 0)%float then 0%float else x) else Null
  | Null => Null
  end.

(** [ToNumber]: in an addition [null] counts as [0]. *)
Definition toNumber (v : JsNumber) : float :=
  match v with
  | Num x => x
  | Null => 0%float
  end.

(** A gadget as [JSON] sees it: the date is the text [toJSON] gives for it,
    the price is a number or [null]. *)
Record WireGadget {IsoText : Type} := {
  w_id : string;
  w_name : string;
  w_brand : string;
  w_price : JsNumber;
  w_addedAt : IsoText
}.
Arguments WireGadget : clear implicits.

Record WireEntry {IsoText : Type} := {
  w_action : Action;
  w_gadget : WireGadget IsoText;
  w_timestamp : IsoText
}.
Arguments WireEntry : clear implicits.

(** The object literal of lines 109-113, the argument of [JSON.stringify]. *)
Record Payload {IsoText : Type} := {
  p_gadgets : list (WireGadget IsoText);
  p_history : list (WireEntry IsoText);
  p_version : Z
}.
Arguments Payload : clear implicits.

(** What [JSON.parse] can return, as far as lines 132-147 tell values apart.
    [DocOther] is any value without array properties (null, a number, a
    string, a boolean, an array).  In [DocObject] a property is [None] when
    it is not an array (for [version]: when it is absent or null), and an
    array element is [None] when it is [null]. *)
Inductive JsonDoc {IsoText : Type} :=
  | DocOther
  | DocObject (gadgets : option (list (option (WireGadget IsoText))))
              (history : option (list (option (WireEntry IsoText))))
              (version : option Z).
Arguments JsonDoc : clear implicits.

(** A gadget and a history entry after [JSON.stringify] and [JSON.parse]. *)
Definition json_gadget {IsoText} (x : WireGadget IsoText) : WireGadget IsoText :=
  {| w_id := w_id x; w_name := w_name x; w_brand := w_brand x;
     w_price := json_number (w_price x); w_addedAt := w_addedAt x |}.

Definition json_entry {IsoText} (e : WireEntry IsoText) : WireEntry IsoText :=
  {| w_action := w_action e; w_gadget := json_gadget (w_gadget e);
     w_timestamp := w_timestamp e |}.

(** What [JSON.parse] reads from the text [JSON.stringify] wrote for a
    payload. *)
Definition doc_of_payload {IsoText} (p : Payload IsoText) : JsonDoc IsoText :=
  DocObject (Some (Some ∘ json_gadget <$> p_gadgets p))
            (Some (Some ∘ json_entry <$> p_history p))
            (Some (p_version p)).

Class Runtime := {
  (** text of [Date.prototype.toISOString] *)
  IsoText : Type;
  toISOString : Z → IsoText;
  (** [new Date(text).getTime()] *)
  parseDate : IsoText → Z;
  (** [crypto.createHash('sha256').update(secret).digest()] *)
  Digest : Type;
  sha256 : string → Digest;
  (** the 16 bytes of [crypto.randomBytes(16)] and their hex text *)
  IV : Type;
  IvHex : Type;
  ivToHex : IV → IvHex;
  bufferFromHex : IvHex → IV;
  (** JSON text and hex cipher text *)
  JsonText : Type;
  CipherHex : Type;
  JSON_stringify : Payload IsoText → JsonText;
  (** [None]: [JSON.parse] throws a SyntaxError *)
  JSON_parse : JsonText → option (JsonDoc IsoText);
  (** [createCipheriv('aes-256-cbc', key, iv)], [update] and [final] *)
  aes_encrypt : Digest → IV → JsonText → CipherHex;
  (** [None]: [createDecipheriv], [update] or [final] throws *)
  aes_decrypt : Digest → IV → CipherHex → option JsonText
}.

(** What the round trip needs of the runtime: each decoder undoes its
    encoder. *)
Class RuntimeLaws (R : Runtime) : Prop := {
  parseDate_toISOString : ∀ t, parseDate (toISOString t) = t;
  bufferFromHex_ivToHex : ∀ iv, bufferFromHex (ivToHex iv) = iv;
  JSON_parse_stringify : ∀ p, JSON_parse (JSON_stringify p) = Some (doc_of_payload p);
  aes_decrypt_encrypt : ∀ k iv t, aes_decrypt k iv (aes_encrypt k iv t) = Some t
}.

(** ** Generic pieces: completions, the insertion-ordered [Map], [sort] *)

(** What a call can throw.  The class itself throws [Error] with a message
    (invalid gadget data, a negative price, a payload of the wrong shape);
    the runtime throws the other three. *)
Inductive Thrown :=
  | Error (message : string)
  | TypeError
  | SyntaxError
  | DecipherError.

Inductive Completion (A : Type) :=
  | Return (a : A)
  | Throw (e : Thrown).
Arguments Return {A} a.
Arguments Throw {A} e.

(** A JavaScript [Map] with string keys iterates in insertion order, and
    [set] on a present key keeps the key's position. *)
Definition JsMap (V : Type) := list (string * V).

Fixpoint map_get {V} (k : string) (m : JsMap V) : option V :=
  match m with
  | [] => None
  | (k', v) :: m' => if decide (k = k') then Some v else map_get k m'
  end.

Fixpoint map_set {V} (k : string) (v : V) (m : JsMap V) : JsMap V :=
  match m with
  | [] => [(k, v)]
  | (k', v') :: m' =>
      if decide (k = k') then (k, v) :: m' else (k', v') :: map_set k v m'
  end.

Fixpoint map_delete {V} (k : string) (m : JsMap V) : JsMap V :=
  match m with
  | [] => []
  | (k', v') :: m' =>
      if decide (k = k') then m' else (k', v') :: map_delete k m'
  end.

Definition map_keys {V} (m : JsMap V) : list string := fst <$> m.
Definition map_values {V} (m : JsMap V) : list V := snd <$> m.

(** [Array.prototype.sort] with a comparator: a stable sort.  [cmp a b < 0]
    puts [a] first, [cmp a b = 0] keeps the original order. *)
Fixpoint sort_insert {A} (cmp : A → A → Z) (x : A) (l : list A) : list A :=
  match l with
  | [] => [x]
  | y :: l' => if (0 <? cmp x y)%Z then y :: sort_insert cmp x l' else x :: l
  end.

Definition Array_sort {A} (cmp : A → A → Z) (l : list A) : list A :=
  foldr (sort_insert cmp) [] l.

(** [s.includes(q)]: the text [q] occurs somewhere in [s]. *)
Fixpoint includes (s q : string) : bool :=
  String.prefix q s ||
  match s with
  | EmptyString => false
  | String _ s' => includes s' q
  end.

(** Address of a gadget object on the heap. *)
Abbreviation ref := nat.

(** A double, in its specification form, that is neither NaN nor below
    zero. *)
Definition sf_nonneg (f : spec_float) : Prop :=
  match f with
  | S754_zero _ | S754_infinity false | S754_finite false _ _ => True
  | _ => False
  end.

(** [a] may stand before [b] in an order that descends by [key]. *)
Definition desc {A} (key : A → Z) (a b : A) : Prop := (key b ≤ key a)%Z.

(** ** The data model (lines 6-24) *)

Section Tracker.
Context {R : Runtime}.

(** A [Date]-typed property.  After an import the [addedAt] of a history
    snapshot is still the parsed text (line 142 re-parses [timestamp] only),
    so the property holds either a [Date] or text. *)
Inductive JsDate :=
  | DateObj (ms : Z)
  | DateText (s : IsoText).

Record Gadget := {
  id : string;
  name : string;
  brand : string;
  price : JsNumber;
  addedAt : JsDate
}.

Record GadgetHistoryEntry := {
  action : Action;
  gadget : ref;
  timestamp : Z
}.

Record EncryptedExport := {
  enc_version : Z;
  enc_iv : IvHex;
  enc_data : CipherHex
}.

(** [Partial<Omit<Gadget, 'id' | 'addedAt'>>]: [None] is [undefined]. *)
Record GadgetPatch := {
  patch_name : option string;
  patch_brand : option string;
  patch_price : option float
}.

(** The private fields of the class (lines 27-29). *)
Record EnterpriseGadgetTracker := {
  gadgets : JsMap ref;
  history : list GadgetHistoryEntry;
  version : Z
}.

(** The object heap and one tracker instance living in it. *)
Local Abbreviation Heap := (list Gadget).

Record World := {
  heap : Heap;
  this : EnterpriseGadgetTracker
}.

(** ** Heap primitives *)

(** A new object: its address is the next free one. *)
Definition alloc (g : Gadget) (h : Heap) : Heap * ref := (h ++ [g], List.length h).

(** [{ ...gadget }]: a new object with the same own properties.  References
    never dangle in JavaScript; the [None] branch is there for totality. *)
Definition spread (h : Heap) (r : ref) : Heap * ref :=
  match h !! r with
  | Some g => alloc g h
  | None => (h, r)
  end.

Definition set_name (n : string) (g : Gadget) : Gadget :=
  {| id := id g; name := n; brand := brand g; price := price g; addedAt := addedAt g |}.
Definition set_brand (b : string) (g : Gadget) : Gadget :=
  {| id := id g; name := name g; brand := b; price := price g; addedAt := addedAt g |}.
Definition set_price (p : JsNumber) (g : Gadget) : Gadget :=
  {| id := id g; name := name g; brand := brand g; price := p; addedAt := addedAt g |}.
Definition set_addedAt (d : JsDate) (g : Gadget) : Gadget :=
  {| id := id g; name := name g; brand := brand g; price := price g; addedAt := d |}.

(** [obj.prop = v]: a write through the reference. *)
Definition assign (f : Gadget → Gadget) (r : ref) (h : Heap) : Heap := alter f r h.

(** ** The class (lines 26-167) *)

(** Lines 31-35: [initialGadgets.forEach(g => this.gadgets.set(g.id, g))].
    The map keeps the caller's own objects.  *)
Definition install (h : Heap) (m : JsMap ref) (g : ref) : JsMap ref :=
  match h !! g with
  | Some o => map_set (id o) g m
  | None => m
  end.

Definition constructor (h : Heap) (initialGadgets : option (list ref))
  : EnterpriseGadgetTracker :=
  {| gadgets := match initialGadgets with
                | Some gs => foldl (install h) [] gs
                | None => []
                end;
     history := [];
     version := 1 |}.

(** Lines 152-154; [random] is the hex text of [crypto.randomBytes(6)]. *)
Definition generateId (random : string) : string := "gadget-" +:+ random.

(** Lines 164-166. *)
Definition createKey (secret : string) : Digest := sha256 secret.

(** Lines 156-162; [now] is the value of [new Date()]. *)
Definition recordHistory (w : World) (a : Action) (g : ref) (now : Z) : World :=
  let '(h', copy) := spread (heap w) g in
  {| heap := h';
     this := {| gadgets := gadgets (this w);
                history := history (this w) ++
                           [{| action := a; gadget := copy; timestamp := now |}];
                version := version (this w) |} |}.

(** Lines 38-54.  [String.length n =? 0] is [!name]; [created] and
    [recorded] are the two clock readings. *)
Definition addGadget (w : World) (name brand : string) (price : float)
    (random : string) (created recorded : Z) : Completion ref * World :=
  if (String.length name =? 0)%nat || (String.length brand =? 0)%nat
     || (price <? 0)%float
  then (Throw (Error "Invalid gadget data."), w)
  else
    let '(h', g) :=
      alloc {| id := generateId random; name := name; brand := brand;
               price := Num price; addedAt := DateObj created |} (heap w) in
    let w' := {| heap := h';
                 this := {| gadgets := map_set (generateId random) g (gadgets (this w));
                            history := history (this w);
                            version := version (this w) |} |} in
    (Return g, recordHistory w' ADD g recorded).

(** Lines 57-70.  [Return None] is [return null]. *)
Definition updateGadget (w : World) (key : string) (data : GadgetPatch) (now : Z)
  : Completion (option ref) * World :=
  match map_get key (gadgets (this w)) with
  | None => (Return None, w)
  | Some g =>
      let h1 := match patch_name data with
                | Some n => assign (set_name n) g (heap w)
                | None => heap w
                end in
      let h2 := match patch_brand data with
                | Some b => assign (set_brand b) g h1
                | None => h1
                end in
      let finish (h3 : Heap) :=
        let '(h4, copy) := spread h3 g in
        (Return (Some g), recordHistory {| heap := h4; this := this w |} UPDATE copy now) in
      match patch_price data with
      | Some p =>
          if (p <? 0)%float
          then (Throw (Error "Price cannot be negative."), {| heap := h2; this := this w |})
          else finish (assign (set_price (Num p)) g h2)
      | None => finish h2
      end
  end.

(** Lines 73-80. *)
Definition deleteGadget (w : World) (key : string) (now : Z) : bool * World :=
  match map_get key (gadgets (this w)) with
  | None => (false, w)
  | Some g =>
      let w' := {| heap := heap w;
                   this := {| gadgets := map_delete key (gadgets (this w));
                              history := history (this w);
                              version := version (this w) |} |} in
      (true, recordHistory w' DELETE g now)
  end.

(** [d.getTime()]; on a value that is not a [Date] the call is a TypeError. *)
Definition getTime (h : Heap) (g : ref) : option Z :=
  match h !! g with
  | Some {| addedAt := DateObj ms |} => Some ms
  | _ => None
  end.

(** The comparator of line 84. *)
Definition byAddedAtDesc (h : Heap) (a b : ref) : Z :=
  (default 0 (getTime h b) - default 0 (getTime h a))%Z.

(** Lines 83-85.  With fewer than two elements [sort] never calls the
    comparator; otherwise it reads [addedAt.getTime()] of every element. *)
Definition listGadgets (w : World) : Completion (list ref) :=
  let values := map_values (gadgets (this w)) in
  if forallb (λ g, bool_decide (is_Some (getTime (heap w) g))) values
     || (List.length values <? 2)%nat
  then Return (Array_sort (byAddedAtDesc (heap w)) values)
  else Throw TypeError.

(** Lines 88-93.  [String.prototype.toLowerCase] is the runtime's and is
    passed in; the result keeps the order of the map. *)
Definition findGadgets (toLowerCase : string → string) (w : World) (query : string)
  : list ref :=
  let q := toLowerCase query in
  List.filter
    (λ g, match heap w !! g with
          | Some o => includes (toLowerCase (name o)) q
                      || includes (toLowerCase (brand o)) q
          | None => false
          end)
    (map_values (gadgets (this w))).

(** Lines 96-98: a fold of double additions, from [0]. *)
Definition totalValue (w : World) : float :=
  foldl (λ sum g, match heap w !! g with
                  | Some o => (sum + toNumber (price o))%float
                  | None => sum
                  end)
        0%float (map_values (gadgets (this w))).

(** Lines 101-103. *)
Definition getHistory (w : World) : list GadgetHistoryEntry :=
  Array_sort (λ a b, (timestamp b - timestamp a)%Z) (history (this w)).

(** [JSON.stringify] of a gadget object: a [Date] is written by its
    [toISOString], text is written as it is. *)
Definition wire_date (d : JsDate) : IsoText :=
  match d with
  | DateObj ms => toISOString ms
  | DateText s => s
  end.

Definition wire_gadget (o : Gadget) : WireGadget IsoText :=
  {| w_id := id o; w_name := name o; w_brand := brand o; w_price := price o;
     w_addedAt := wire_date (addedAt o) |}.

Definition wire_entry (h : Heap) (e : GadgetHistoryEntry) : option (WireEntry IsoText) :=
  o ← h !! gadget e;
  Some {| w_action := action e; w_gadget := wire_gadget o;
          w_timestamp := toISOString (timestamp e) |}.

(** Lines 106-122; [iv] is the value of [crypto.randomBytes(16)]. *)
Definition exportEncrypted (w : World) (secret : string) (iv : IV) : EncryptedExport :=
  let data := JSON_stringify
    {| p_gadgets := omap (λ g, wire_gadget <$> heap w !! g) (map_values (gadgets (this w)));
       p_history := omap (wire_entry (heap w)) (history (this w));
       p_version := version (this w) |} in
  {| enc_version := version (this w);
     enc_iv := ivToHex iv;
     enc_data := aes_encrypt (createKey secret) iv data |}.

(** The object [JSON.parse] builds for a gadget: [addedAt] is text.  The
    objects of the parsed tree are reachable from nowhere else, so the
    embedding puts each one on the heap when the import first touches it. *)
Definition parsed_gadget (g : WireGadget IsoText) : Gadget :=
  {| id := w_id g; name := w_name g; brand := w_brand g; price := w_price g;
     addedAt := DateText (w_addedAt g) |}.

(** Lines 137-140: the [forEach] over [parsed.gadgets].  Reading a property
    of [null] throws a TypeError and ends the loop. *)
Fixpoint import_gadgets (w : World) (gs : list (option (WireGadget IsoText)))
  : Completion unit * World :=
  match gs with
  | [] => (Return (), w)
  | None :: _ => (Throw TypeError, w)
  | Some g :: gs' =>
      let '(h1, o) := alloc (parsed_gadget g) (heap w) in
      let h2 := assign (set_addedAt (DateObj (parseDate (w_addedAt g)))) o h1 in
      import_gadgets
        {| heap := h2;
           this := {| gadgets := map_set (w_id g) o (gadgets (this w));
                      history := history (this w);
                      version := version (this w) |} |} gs'
  end.

(** Lines 142-145: the [map] over [parsed.history] builds a new array; the
    entry keeps the parsed gadget object as it is. *)
Fixpoint import_history (h : Heap) (hs : list (option (WireEntry IsoText)))
  : Completion (list GadgetHistoryEntry) * Heap :=
  match hs with
  | [] => (Return [], h)
  | None :: _ => (Throw TypeError, h)
  | Some e :: hs' =>
      let '(h1, o) := alloc (parsed_gadget (w_gadget e)) h in
      match import_history h1 hs' with
      | (Return es, h2) =>
          (Return ({| action := w_action e; gadget := o;
                      timestamp := parseDate (w_timestamp e) |} :: es), h2)
      | (Throw x, h2) => (Throw x, h2)
      end
  end.

(** Lines 125-148. *)
Definition importEncrypted (w : World) (encryptedExport : EncryptedExport)
    (secret : string) : Completion unit * World :=
  let iv := bufferFromHex (enc_iv encryptedExport) in
  match aes_decrypt (createKey secret) iv (enc_data encryptedExport) with
  | None => (Throw DecipherError, w)
  | Some decrypted =>
      match JSON_parse decrypted with
      | None => (Throw SyntaxError, w)
      | Some (DocObject (Some parsed_gadgets) (Some parsed_history) parsed_version) =>
          let cleared := {| heap := heap w;
                            this := {| gadgets := [];
                                       history := history (this w);
                                       version := version (this w) |} |} in
          match import_gadgets cleared parsed_gadgets with
          | (Throw x, w1) => (Throw x, w1)
          | (Return _, w1) =>
              match import_history (heap w1) parsed_history with
              | (Throw x, h2) => (Throw x, {| heap := h2; this := this w1 |})
              | (Return entries, h2) =>
                  (Return (),
                   {| heap := h2;
                      this := {| gadgets := gadgets (this w1);
                                 history := entries;
                                 version := match parsed_version with
                                            | Some v => if (v =? 0)%Z then 1 else v
                                            | None => 1
                                            end |} |})
              end
          end
      | Some _ => (Throw (Error "Invalid encrypted data."), w)
      end
  end.

End Tracker.

Abbreviation Heap := (list Gadget).

(** ** A small runtime to run the model on

    Dates are written as their millisecond count, JSON text is the parsed
    document itself, and the cipher text carries the key and the iv, which
    decryption compares with its own. *)

Definition plain_decrypt (k : string) (iv : string)
    (c : string * string * JsonDoc Z) : option (JsonDoc Z) :=
  let '(k', iv', t) := c in
  if decide (k = k' ∧ iv = iv') then Some t else None.

Definition plain_runtime : Runtime :=
  {| IsoText := Z; toISOString := λ t, t; parseDate := λ t, t;
     Digest := string; sha256 := λ s, s;
     IV := string; IvHex := string; ivToHex := λ s, s; bufferFromHex := λ s, s;
     JsonText := JsonDoc Z; CipherHex := string * string * JsonDoc Z;
     JSON_stringify := doc_of_payload; JSON_parse := Some;
     aes_encrypt := λ k iv t, (k, iv, t);
     aes_decrypt := plain_decrypt |}.

(** A [toLowerCase] for texts of ASCII letters, to run [findGadgets] with. *)
Definition lower_ascii (c : Ascii.ascii) : Ascii.ascii :=
  let n := Ascii.nat_of_ascii c in
  if (65 <=? n)%nat && (n <=? 90)%nat then Ascii.ascii_of_nat (n + 32) else c.

Fixpoint lower (s : string) : string :=
  match s with
  | EmptyString => EmptyString
  | String c s' => String (lower_ascii c) (lower s')
  end.

(** ** Sequences of operations *)

Section Runs.
Context {R : Runtime}.

Inductive Op :=
  | Add (name brand : string) (price : float) (random : string) (created recorded : Z)
  | Update (key : string) (data : GadgetPatch) (now : Z)
  | Delete (key : string) (now : Z)
  | Import (encryptedExport : EncryptedExport) (secret : string).

(** The world after a call, whether it returned or threw. *)
Definition step (w : World) (o : Op) : World :=
  match o with
  | Add n b p random created recorded => (addGadget w n b p random created recorded).2
  | Update key data now => (updateGadget w key data now).2
  | Delete key now => (deleteGadget w key now).2
  | Import e secret => (importEncrypted w e secret).2
  end.

Definition run (w : World) (ops : list Op) : World := foldl step w ops.

(** [new EnterpriseGadgetTracker(initialGadgets)] in a heap that holds the
    caller's objects. *)
Definition initial (h : Heap) (initialGadgets : option (list ref)) : World :=
  {| heap := h; this := constructor h initialGadgets |}.

(** The caller's array holds [Gadget] objects as the interface types them:
    [addedAt] is a [Date]. *)
Definition well_typed (h : Heap) (initialGadgets : option (list ref)) : Prop :=
  Forall (λ g, is_Some (getTime h g)) (default [] initialGadgets).

Definition reachable (w : World) : Prop :=
  ∃ h initialGadgets ops,
    well_typed h initialGadgets ∧ w = run (initial h initialGadgets) ops.

(** The time the comparator of [listGadgets] reads from an object. *)
Definition addedAt_ms (h : Heap) (g : ref) : Z := default 0%Z (getTime h g).

(** The data-model invariant of a gadget. *)
Definition valid_gadget (o : Gadget) : Prop :=
  name o ≠ "" ∧ brand o ≠ "" ∧ ∃ x, price o = Num x ∧ (0 <=? x)%float = true.

Definition all_valid (w : World) : Prop :=
  ∀ k g, (k, g) ∈ gadgets (this w) → ∃ o, heap w !! g = Some o ∧ valid_gadget o.

(** [a === b] on number-typed properties. *)
Definition same_price (a b : JsNumber) : Prop :=
  match a, b with
  | Num x, Num y => (x =? y)%float = true
  | Null, Null => True
  | _, _ => False
  end.

(** The properties by which two gadgets are compared: id, name, brand and
    price. *)
Definition same_gadget (o o' : Gadget) : Prop :=
  id o = id o' ∧ name o = name o' ∧ brand o = brand o' ∧ same_price (price o) (price o').

(** Two stored objects, at [g] in [h] and at [g'] in [h'], that compare
    equal, and two history entries that do: by action, timestamp and
    snapshot. *)
Definition same_stored (h h' : Heap) (g g' : ref) : Prop :=
  ∃ o o', h !! g = Some o ∧ h' !! g' = Some o' ∧ same_gadget o o'.

Definition same_entry (h h' : Heap) (e e' : GadgetHistoryEntry) : Prop :=
  action e = action e' ∧ timestamp e = timestamp e' ∧
  same_stored h h' (gadget e) (gadget e').

(** A price that is not NaN and not an infinity. *)
Definition json_safe_price (v : JsNumber) : bool :=
  match v with
  | Num x => is_finite x
  | Null => true
  end.

(** No gadget of the map and no snapshot of the history has NaN or an
    infinity as its price. *)
Definition json_safe (w : World) : bool :=
  forallb (λ g, from_option (λ o, json_safe_price (price o)) true (heap w !! g))
          (map_values (gadgets (this w)) ++ (gadget <$> history (this w))).

(** A stored gadget as an export followed by an import returns it: the
    price is what [JSON] makes of it, every other property is the same. *)
Definition json_trip (o : Gadget) : Gadget :=
  set_price (json_number (price o)) o.

(** A history entry as an observer compares it: by its action, its
    timestamp and the snapshot it refers to, the snapshot by what
    [JSON.stringify] and [JSON.parse] make of it (id, name, brand, price and
    the text of [addedAt]). *)
Definition snapshot_view (h : Heap) (g : ref) : option (WireGadget IsoText) :=
  json_gadget ∘ wire_gadget <$> h !! g.

Definition entry_view (h : Heap) (e : GadgetHistoryEntry)
  : Action * option (WireGadget IsoText) * Z :=
  (action e, snapshot_view h (gadget e), timestamp e).

(** The gadgets of the payload an import call decrypts, when the payload
    gets past the check of lines 132-134. *)
Definition payload_gadgets (e : EncryptedExport) (secret : string)
  : list (option (WireGadget IsoText)) :=
  match aes_decrypt (createKey secret) (bufferFromHex (enc_iv e)) (enc_data e)
        ≫= JSON_parse with
  | Some (DocObject (Some xs) (Some _) _) => xs
  | _ => []
  end.

Definition valid_wire (x : WireGadget IsoText) : Prop :=
  w_name x ≠ "" ∧ w_brand x ≠ "" ∧ ∃ p, w_price x = Num p ∧ (0 <=? p)%float = true.

(** Calls that put no invalid text, number or payload into the store: the
    price given to an add or an update is not NaN, an update that provides a
    name or a brand provides a non-empty one, and the gadgets of an imported
    payload satisfy the invariant. *)
Definition checked (o : Op) : Prop :=
  match o with
  | Add _ _ p _ _ _ => is_nan p = false
  | Delete _ _ => True
  | Update _ data _ =>
      patch_name data ≠ Some "" ∧ patch_brand data ≠ Some "" ∧
      ∀ p, patch_price data = Some p → is_nan p = false
  | Import e secret =>
      Forall (λ x, from_option valid_wire True x) (payload_gadgets e secret)
  end.

(** The text [q] occurs in the text [s]. *)
Definition occurs (q s : string) : Prop := ∃ a b, s = a +:+ q +:+ b.

(** A call of [addGadget], [updateGadget] or [deleteGadget]. *)
Definition no_import (o : Op) : Prop :=
  match o with
  | Import _ _ => False
  | _ => True
  end.

(** A call of [addGadget], [updateGadget] or [deleteGadget] whose price, if
    it has one, is a finite number. *)
Definition finite_op (o : Op) : Prop :=
  match o with
  | Add _ _ p _ _ _ => is_finite p = true
  | Update _ data _ => ∀ p, patch_price data = Some p → is_finite p = true
  | Delete _ _ => True
  | Import _ _ => False
  end.

(** The record [updateGadget] is to leave behind: the provided properties
    take their new value, the omitted ones keep theirs. *)
Definition patched (data : GadgetPatch) (o : Gadget) : Gadget :=
  {| id := id o;
     name := default (name o) (patch_name data);
     brand := default (brand o) (patch_brand data);
     price := from_option Num (price o) (patch_price data);
     addedAt := addedAt o |}.

(** The same patch without its price. *)
Definition text_only (data : GadgetPatch) : GadgetPatch :=
  {| patch_name := patch_name data; patch_brand := patch_brand data;
     patch_price := None |}.

(** The object lines 138-139 put into the map for a parsed gadget. *)
Definition imported_gadget (g : WireGadget IsoText) : Gadget :=
  set_addedAt (DateObj (parseDate (w_addedAt g))) (parsed_gadget g).

(** The entry line 142 builds for a parsed entry whose gadget object is at
    address [g]. *)
Definition imported_entry (e : WireEntry IsoText) (g : ref) : GadgetHistoryEntry :=
  {| action := w_action e; gadget := g; timestamp := parseDate (w_timestamp e) |}.

(** What the entry read from a parsed entry shows. *)
Definition wire_view (e : WireEntry IsoText)
  : Action * option (WireGadget IsoText) * Z :=
  (w_action e, Some (json_gadget (w_gadget e)), parseDate (w_timestamp e)).

(** A heap [h'] keeps the objects of [h], up to their mutable properties. *)
Definition keeps (h h' : Heap) : Prop :=
  ∀ (g : ref) (o : Gadget), h !! g = Some o →
         ∃ o', h' !! g = Some o' ∧ id o' = id o ∧ addedAt o' = addedAt o.

(** What holds of every reachable world: keys are distinct, every stored
    object is keyed by its own id and has a [Date], history snapshots exist
    and none of them is an object of the map. *)
Record wf (w : World) : Prop := {
  wf_keys : NoDup (map_keys (gadgets (this w)));
  wf_live : ∀ k g, (k, g) ∈ gadgets (this w) →
            ∃ o ms, heap w !! g = Some o ∧ id o = k ∧ addedAt o = DateObj ms;
  wf_snapshots : ∀ e, e ∈ history (this w) → is_Some (heap w !! gadget e);
  wf_apart : ∀ k g e, (k, g) ∈ gadgets (this w) → e ∈ history (this w) → gadget e ≠ g
}.

End Runs.

(** ** The script of [example.ts] and some stores to run the model on *)

Section Samples.
#[local] Existing Instance plain_runtime.

(** Lines 3-6 of [example.ts], with clock readings and random ids chosen. *)
Definition example_ops : list Op :=
  [ Add "MacBook Pro" "Apple" 2499%float "a1b2c3d4e5f6" 1000 1001;
    Add "Surface Pro 9" "Microsoft" 1599%float "0f1e2d3c4b5a" 2000 2001;
    Update "gadget-0f1e2d3c4b5a"
           {| patch_name := None; patch_brand := None; patch_price := Some 2399%float |} 3000 ].

Definition example_world : World := run (initial [] None) example_ops.

Definition mac_key : string := "gadget-a1b2c3d4e5f6".

(** A well-typed gadget object that fails the validation of [addGadget]. *)
Definition unnamed_gadget : Gadget :=
  {| id := "g1"; name := ""; brand := "Acme"; price := Num (-5)%float; addedAt := DateObj 0 |}.

(** An export whose payload is [{"gadgets":[null],"history":[],"version":1}],
    encrypted under the secret ["k"]. *)
Definition null_export : EncryptedExport :=
  {| enc_version := 1; enc_iv := "00";
     enc_data := ("k", "00", DocObject (Some [None]) (Some []) (Some 1%Z)) |}.

(** An export whose payload holds one gadget with an empty name and a
    negative price. *)
Definition unchecked_export : EncryptedExport :=
  {| enc_version := 1; enc_iv := "00";
     enc_data :=
       ("k", "00",
        DocObject (Some [Some {| w_id := "g1"; w_name := ""; w_brand := "Acme";
                                 w_price := Num (-5)%float; w_addedAt := 0%Z |}])
                  (Some []) (Some 1%Z)) |}.

(** An export whose payload holds one valid gadget. *)
Definition checked_export : EncryptedExport :=
  {| enc_version := 1; enc_iv := "00";
     enc_data :=
       ("k", "00",
        DocObject (Some [Some {| w_id := "g2"; w_name := "Pixel"; w_brand := "Google";
                                 w_price := Num 799%float; w_addedAt := 5%Z |}])
                  (Some []) (Some 1%Z)) |}.

(** An export whose payload holds one valid gadget and a history whose only
    element is [null]. *)
Definition half_export : EncryptedExport :=
  {| enc_version := 1; enc_iv := "00";
     enc_data :=
       ("k", "00",
        DocObject (Some [Some {| w_id := "g2"; w_name := "Pixel"; w_brand := "Google";
                                 w_price := Num 799%float; w_addedAt := 5%Z |}])
                  (Some [None]) (Some 1%Z)) |}.

(** A store that holds one gadget of its own. *)
Definition other_world : World :=
  run (initial [] None) [Add "Walkman" "Sony" 99%float "ffffffffffff" 10 11].

(** A store after one [addGadget] whose price is [Infinity]. *)
Definition priceless_world : World :=
  run (initial [] None) [Add "Mona Lisa" "Leonardo" infinity "0123456789ab" 10 11].

(** Two well-typed gadget objects: one with the id of [unnamed_gadget], one
    with an id of its own. *)
Definition twin_gadget : Gadget :=
  {| id := "g1"; name := "Phone"; brand := "Acme"; price := Num 10%float;
     addedAt := DateObj 1 |}.

Definition second_gadget : Gadget :=
  {| id := "g2"; name := "Phone"; brand := "Acme"; price := Num 10%float;
     addedAt := DateObj 1 |}.

End Samples.

(** ** Facts about doubles *)

Section FloatFacts.

Lemma Prim2SF_zero : Prim2SF 0%float = S754_zero false.
Proof. reflexivity. Qed.

Lemma leb_zero_nonneg x : (0 <=? x)%float = true ↔ sf_nonneg (Prim2SF x).
Proof.
  rewrite FloatAxioms.leb_spec, Prim2SF_zero. unfold SFleb.
  destruct (Prim2SF x) as [s|[|]| |[|] m e]; simpl; try destruct s; simpl;
    intuition congruence.
Qed.

Lemma shr_1_nonneg mrs : (0 ≤ shr_m mrs)%Z → (0 ≤ shr_m (shr_1 mrs))%Z.
Proof. destruct mrs as [[|[p|p|]|p] r s]; simpl; lia. Qed.

Lemma iter_pos_nonneg p mrs :
  (0 ≤ shr_m mrs)%Z → (0 ≤ shr_m (SpecFloat.iter_pos shr_1 p mrs))%Z.
Proof.
  revert mrs. induction p as [p IH|p IH|]; intros mrs Hm; simpl.
  - apply IH, IH. by apply shr_1_nonneg.
  - by apply IH, IH.
  - by apply shr_1_nonneg.
Qed.

Lemma shr_fexp_nonneg m e l :
  (0 ≤ m)%Z → (0 ≤ shr_m (shr_fexp prec emax m e l).1)%Z.
Proof.
  intros Hm. unfold shr_fexp, shr.
  assert (shr_m (shr_record_of_loc m l) = m) as Hrec by (by destruct l as [|[]]).
  destruct (_ - e)%Z; simpl; rewrite ?Hrec; try done.
  apply iter_pos_nonneg. by rewrite Hrec.
Qed.

Lemma round_nearest_even_nonneg m l : (0 ≤ m)%Z → (0 ≤ round_nearest_even m l)%Z.
Proof. intros Hm. destruct l as [|[]]; simpl; try destruct (Z.even m); lia. Qed.

Lemma binary_round_aux_nonneg m e l :
  (0 ≤ m)%Z → sf_nonneg (binary_round_aux prec emax false m e l).
Proof.
  intros Hm. unfold binary_round_aux.
  pose proof (shr_fexp_nonneg m e l Hm) as H1.
  destruct (shr_fexp prec emax m e l) as [mrs' e']. simpl in H1.
  pose proof (shr_fexp_nonneg _ e' loc_Exact
                (round_nearest_even_nonneg _ (loc_of_shr_record mrs') H1)) as H2.
  destruct (shr_fexp prec emax _ e' loc_Exact) as [mrs'' e'']. simpl in H2.
  destruct (shr_m mrs'') as [|p|p]; [done | | lia].
  by destruct (e'' <=? emax - prec)%Z.
Qed.

Lemma SF64add_nonneg a b : sf_nonneg a → sf_nonneg b → sf_nonneg (SF64add a b).
Proof.
  destruct a as [sa|[|]| |[|] ma ea], b as [sb|[|]| |[|] mb eb]; simpl; try done;
    try (destruct sa; done); try (destruct sb; done).
  - intros _ _. by destruct sa, sb.
  - intros _ _. unfold SF64add, SFadd, binary_normalize. simpl.
    unfold binary_round. destruct (shl_align _ _ _) as [mz ez].
    by apply binary_round_aux_nonneg.
Qed.

(** The sum of two doubles that are at least zero is at least zero: no
    rounding and no overflow takes it below. *)
Lemma add_nonneg x y :
  (0 <=? x)%float = true → (0 <=? y)%float = true → (0 <=? x + y)%float = true.
Proof.
  intros Hx%leb_zero_nonneg Hy%leb_zero_nonneg. apply leb_zero_nonneg.
  rewrite FloatAxioms.add_spec. by apply SF64add_nonneg.
Qed.

(** [price < 0] is false of every double that is at least zero, and of NaN. *)
Lemma not_negative_nonneg x :
  (x <? 0)%float = false → is_nan x = false → (0 <=? x)%float = true.
Proof.
  unfold is_nan. rewrite FloatAxioms.ltb_spec, FloatAxioms.eqb_spec, Prim2SF_zero.
  intros Hlt Hnan. apply leb_zero_nonneg. revert Hlt Hnan. unfold SFltb, SFeqb.
  destruct (Prim2SF x) as [s|[|]| |[|] m e]; simpl; try done.
Qed.

Lemma nonneg_not_negative x : (0 <=? x)%float = true → (x <? 0)%float = false.
Proof.
  rewrite FloatAxioms.ltb_spec, Prim2SF_zero. intros Hx%leb_zero_nonneg. revert Hx.
  unfold SFltb. destruct (Prim2SF x) as [s|[|]| |[|] m e]; simpl; try done.
Qed.

Lemma finite_eqb_refl x : is_finite x = true → (x =? x)%float = true.
Proof.
  unfold is_finite, is_nan. destruct (x =? x)%float; [done|]. by simpl.
Qed.

Lemma json_number_idem v : json_number (json_number v) = json_number v.
Proof.
  destruct v as [x|]; [|done]. simpl.
  destruct (is_finite x) eqn:Hfin; [|done].
  destruct (x =? 0)%float eqn:Hz; simpl; [done|]. by rewrite Hfin, Hz.
Qed.

(** A price that is not NaN and not an infinity is [===] to what [JSON]
    returns for it. *)
Lemma same_price_json v : json_safe_price v = true → same_price v (json_number v).
Proof.
  destruct v as [x|]; [|done]. simpl. intros Hfin. rewrite Hfin. simpl.
  destruct (x =? 0)%float eqn:Hz; [done|]. by apply finite_eqb_refl.
Qed.

Lemma json_gadget_idem {IsoText} (x : WireGadget IsoText) :
  json_gadget (json_gadget x) = json_gadget x.
Proof. unfold json_gadget. simpl. by rewrite json_number_idem. Qed.

End FloatFacts.

(** ** Facts about the insertion-ordered map *)

Section JsMapFacts.
Context {V : Type}.
Implicit Types (m : JsMap V) (k : string) (v : V).

Lemma map_get_Some_elem_of m k v : map_get k m = Some v → (k, v) ∈ m.
Proof.
  induction m as [|[k' v'] m IH]; simpl; [done|].
  case_decide as Hk; intros Hg.
  - injection Hg as ->. subst. apply list_elem_of_here.
  - apply list_elem_of_further. auto.
Qed.

Lemma elem_of_map_keys m k v : (k, v) ∈ m → k ∈ map_keys m.
Proof. intros Hin. apply list_elem_of_fmap. by exists (k, v). Qed.

Lemma elem_of_map_values m k v : (k, v) ∈ m → v ∈ map_values m.
Proof. intros Hin. apply list_elem_of_fmap. by exists (k, v). Qed.

Lemma elem_of_map_get m k v :
  NoDup (map_keys m) → (k, v) ∈ m → map_get k m = Some v.
Proof.
  induction m as [|[k' v'] m IH]; simpl; intros Hnd Hin.
  - by apply elem_of_nil in Hin.
  - apply NoDup_cons in Hnd as [Hk' Hnd].
    apply elem_of_cons in Hin as [Heq | Hin].
    + injection Heq as -> ->. by rewrite decide_True.
    + rewrite decide_False; [auto|].
      intros ->. apply Hk'. by eapply elem_of_map_keys.
Qed.

Lemma map_set_fresh m k v : k ∉ map_keys m → map_set k v m = m ++ [(k, v)].
Proof.
  induction m as [|[k' v'] m IH]; simpl; [done|].
  rewrite not_elem_of_cons. intros [Hne Hk].
  rewrite decide_False by done. by rewrite IH.
Qed.

Lemma map_keys_set m k v :
  map_keys (map_set k v m) =
  if decide (k ∈ map_keys m) then map_keys m else map_keys m ++ [k].
Proof.
  induction m as [|[k' v'] m IH].
  - by case_decide as Hin; [apply elem_of_nil in Hin|].
  - change (map_keys ((k', v') :: m)) with (k' :: map_keys m).
    change (map_set k v ((k', v') :: m)) with
      (if decide (k = k') then (k, v) :: m else (k', v') :: map_set k v m).
    destruct (decide (k = k')) as [->|Hne].
    + rewrite decide_True; [done | apply list_elem_of_here].
    + change (map_keys ((k', v') :: map_set k v m)) with (k' :: map_keys (map_set k v m)).
      rewrite IH. destruct (decide (k ∈ map_keys m)) as [Hin|Hin].
      * rewrite decide_True; [done | by apply list_elem_of_further].
      * rewrite decide_False; [done|]. rewrite not_elem_of_cons. done.
Qed.

Lemma map_set_NoDup m k v : NoDup (map_keys m) → NoDup (map_keys (map_set k v m)).
Proof.
  intros Hnd. rewrite map_keys_set. case_decide as Hin; [done|].
  apply NoDup_app. split_and!; [done | | apply NoDup_singleton].
  intros x Hx Hx'%list_elem_of_singleton. by subst.
Qed.

Lemma map_get_set m k v k' :
  map_get k' (map_set k v m) = if decide (k' = k) then Some v else map_get k' m.
Proof.
  induction m as [|[k0 v0] m IH]; simpl.
  - by destruct (decide (k' = k)).
  - destruct (decide (k = k0)) as [->|Hne]; simpl.
    + by destruct (decide (k' = k0)).
    + rewrite IH. destruct (decide (k' = k0)) as [->|?]; [|done].
      by rewrite decide_False.
Qed.

Lemma elem_of_map_set m k v k' v' :
  NoDup (map_keys m) → (k', v') ∈ map_set k v m →
  (k' = k ∧ v' = v) ∨ (k' ≠ k ∧ (k', v') ∈ m).
Proof.
  intros Hnd Hin.
  apply elem_of_map_get in Hin; [|by apply map_set_NoDup].
  rewrite map_get_set in Hin. destruct (decide (k' = k)) as [->|Hne].
  - left. by injection Hin as ->.
  - right. split; [done|]. by apply map_get_Some_elem_of.
Qed.

Lemma elem_of_map_set_weak m k v k' v' :
  (k', v') ∈ map_set k v m → (k', v') = (k, v) ∨ (k', v') ∈ m.
Proof.
  induction m as [|[k0 v0] m IH]; simpl.
  - intros ->%list_elem_of_singleton. by left.
  - destruct (decide (k = k0)) as [->|Hne]; intros [->|Hin]%elem_of_cons.
    + by left.
    + right. by apply list_elem_of_further.
    + right. apply list_elem_of_here.
    + destruct (IH Hin); [by left|]. right. by apply list_elem_of_further.
Qed.

Lemma elem_of_map_delete m k k' v' : (k', v') ∈ map_delete k m → (k', v') ∈ m.
Proof.
  induction m as [|[k0 v0] m IH]; simpl; [done|].
  destruct (decide (k = k0)) as [->|?].
  - apply list_elem_of_further.
  - intros [->|Hin]%elem_of_cons; [apply list_elem_of_here|].
    apply list_elem_of_further; auto.
Qed.

Lemma map_keys_delete_sublist m k : map_keys (map_delete k m) `sublist_of` map_keys m.
Proof.
  induction m as [|[k0 v0] m IH]; simpl; [done|].
  destruct (decide (k = k0)) as [->|?]; simpl.
  - by apply sublist_cons.
  - by apply sublist_skip.
Qed.

Lemma map_delete_NoDup m k : NoDup (map_keys m) → NoDup (map_keys (map_delete k m)).
Proof. intros Hnd. eapply sublist_NoDup; [done | apply map_keys_delete_sublist]. Qed.

Lemma map_keys_delete_gone m k : NoDup (map_keys m) → k ∉ map_keys (map_delete k m).
Proof.
  induction m as [|[k0 v0] m IH]; simpl; intros Hnd.
  - apply not_elem_of_nil.
  - apply NoDup_cons in Hnd as [Hk0 Hnd].
    destruct (decide (k = k0)) as [->|?]; simpl; [done|].
    rewrite not_elem_of_cons. auto.
Qed.

Lemma elem_of_map_delete_ne m k k' v' :
  (k', v') ∈ m → k' ≠ k → (k', v') ∈ map_delete k m.
Proof.
  intros Hin Hne. induction m as [|[k0 v0] m IH]; simpl; [done|].
  apply elem_of_cons in Hin as [Heq|Hin].
  - injection Heq as <- <-. rewrite decide_False by done. apply list_elem_of_here.
  - destruct (decide (k = k0)) as [->|?]; [done|].
    apply list_elem_of_further; auto.
Qed.

End JsMapFacts.

(** ** Facts about [Array_sort] with a comparator [key b - key a] *)

Section SortFacts.
Context {A : Type} (key : A → Z) (cmp : A → A → Z).
Hypothesis cmp_key : ∀ a b, cmp a b = (key b - key a)%Z.

Local Abbreviation desc := (desc key).

Lemma sort_insert_perm x l : sort_insert cmp x l ≡ₚ x :: l.
Proof.
  induction l as [|y l IH]; simpl; [done|].
  destruct (0 <? cmp x y)%Z; [|done].
  rewrite IH. apply Permutation_swap.
Qed.

Lemma Array_sort_perm l : Array_sort cmp l ≡ₚ l.
Proof.
  induction l as [|x l IH]; simpl; [done|].
  by rewrite sort_insert_perm, IH.
Qed.

Lemma sort_insert_sorted x l :
  StronglySorted desc l → StronglySorted desc (sort_insert cmp x l).
Proof.
  induction 1 as [|y l Hs IH Hy]; simpl.
  - repeat constructor.
  - rewrite cmp_key. destruct (Z.ltb_spec 0 (key y - key x)) as [Hlt|Hge].
    + constructor; [done|].
      rewrite sort_insert_perm. constructor; [unfold desc; lia | done].
    + constructor; [by constructor|].
      constructor; [unfold desc; lia|].
      eapply Forall_impl; [exact Hy|]. unfold desc. intros z Hz. lia.
Qed.

Lemma Array_sort_sorted l : StronglySorted desc (Array_sort cmp l).
Proof.
  induction l as [|x l IH]; simpl; [constructor | by apply sort_insert_sorted].
Qed.

(** Stability: elements with one and the same key keep their order. *)
Lemma sort_insert_stable t x l :
  filter (λ a, key a = t) (sort_insert cmp x l) = filter (λ a, key a = t) (x :: l).
Proof.
  induction l as [|y l IH]; simpl; [done|].
  rewrite cmp_key. destruct (Z.ltb_spec 0 (key y - key x)) as [Hlt|Hge]; [|done].
  rewrite filter_cons, IH, !filter_cons.
  destruct (decide (key y = t)) as [Hy|Hy].
  2: done.
  by rewrite !decide_False by lia.
Qed.

Lemma Array_sort_stable t l :
  filter (λ a, key a = t) (Array_sort cmp l) = filter (λ a, key a = t) l.
Proof.
  induction l as [|x l IH]; simpl; [done|].
  by rewrite sort_insert_stable, !filter_cons, IH.
Qed.

End SortFacts.

(** ** The invariant of reachable worlds *)

Section Invariant.
Context {R : Runtime}.
Implicit Types (w : World) (h : Heap) (g : ref) (o : Gadget).

Lemma getTime_Some h g t :
  getTime h g = Some t ↔ ∃ o, h !! g = Some o ∧ addedAt o = DateObj t.
Proof.
  unfold getTime. destruct (h !! g) as [[i n b p [ms|s]]|]; simpl.
  - split; [intros [= ->]; eauto | intros (o & [= <-] & [= ->]); done].
  - split; [done | intros (o & [= <-] & [=])].
  - split; [done | intros (o & [=] & _)].
Qed.

Lemma lookup_alloc_new h o : (h ++ [o]) !! List.length h = Some o.
Proof. by rewrite list_lookup_middle. Qed.

Lemma lookup_assign h f g g' :
  assign f g h !! g' = if decide (g = g') then f <$> h !! g' else h !! g'.
Proof.
  unfold assign. rewrite list_lookup_alter.
  repeat case_decide; by subst.
Qed.

Lemma keeps_app h l : keeps h (h ++ l).
Proof.
  intros g o Hg. exists o. split_and!; [|done|done].
  by apply lookup_app_l_Some.
Qed.

Lemma wf_keeps h h' t :
  keeps h h' → wf {| heap := h; this := t |} → wf {| heap := h'; this := t |}.
Proof.
  intros Hk [Hnd Hlive Hsnap Hapart]. simpl in *.
  constructor; simpl; [done | | | done].
  - intros k g Hin. destruct (Hlive k g Hin) as (o & ms & Hg & Hid & Hat).
    destruct (Hk g o Hg) as (o' & Hg' & Hid' & Hat').
    exists o', ms. split_and!; congruence.
  - intros e He. destruct (Hsnap e He) as [o Hg].
    destruct (Hk _ o Hg) as (o' & Hg' & _). by exists o'.
Qed.

Lemma recordHistory_eq w a g now o :
  heap w !! g = Some o →
  recordHistory w a g now =
  {| heap := heap w ++ [o];
     this := {| gadgets := gadgets (this w);
                history := history (this w) ++
                  [{| action := a; gadget := List.length (heap w); timestamp := now |}];
                version := version (this w) |} |}.
Proof. intros Hg. unfold recordHistory, spread, alloc. by rewrite Hg. Qed.

(** New objects and one more history entry whose snapshot is one of them. *)
Lemma wf_snapshot h t new a g now :
  wf {| heap := h; this := t |} →
  List.length h ≤ g < List.length (h ++ new) →
  wf {| heap := h ++ new;
        this := {| gadgets := gadgets t;
                   history := history t ++ [{| action := a; gadget := g; timestamp := now |}];
                   version := version t |} |}.
Proof.
  intros Hwf Hg.
  pose proof (wf_keeps h (h ++ new) t (keeps_app h new) Hwf) as [Hnd Hlive Hsnap Hapart].
  destruct Hwf as [_ Hlive0 _ _].
  simpl in *. constructor; simpl; [done | done | |].
  - intros e [He | ->%list_elem_of_singleton]%elem_of_app; [auto|].
    simpl. apply lookup_lt_is_Some. lia.
  - intros k g' e Hin [He | ->%list_elem_of_singleton]%elem_of_app; [eauto|].
    simpl. destruct (Hlive0 k g' Hin) as (o' & _ & Hg' & _).
    apply lookup_lt_Some in Hg'. lia.
Qed.

Lemma wf_recordHistory w a g now :
  wf w → is_Some (heap w !! g) → wf (recordHistory w a g now).
Proof.
  intros Hwf [o Hg]. rewrite (recordHistory_eq _ _ _ _ o Hg).
  destruct w as [h t]. apply wf_snapshot; [done|].
  rewrite length_app. simpl. lia.
Qed.

Lemma assign_insert h f g o : h !! g = Some o → assign f g h = <[g := f o]> h.
Proof.
  intros Hg. apply list_eq. intros g'.
  rewrite lookup_assign, list_lookup_insert.
  pose proof (lookup_lt_Some _ _ _ Hg).
  repeat case_decide; subst; try rewrite Hg; try done; lia || intuition lia.
Qed.

Lemma lookup_insert_here h g o o' : h !! g = Some o → <[g := o']> h !! g = Some o'.
Proof. intros Hg%lookup_lt_Some. by apply list_lookup_insert_eq. Qed.

Lemma keeps_insert h g o o' :
  h !! g = Some o → id o' = id o → addedAt o' = addedAt o → keeps h (<[g := o']> h).
Proof.
  intros Hg Hid Hat g' o0 Hg'. destruct (decide (g' = g)) as [->|Hne].
  - exists o'. rewrite (lookup_insert_here _ _ o) by done.
    split_and!; congruence.
  - exists o0. by rewrite list_lookup_insert_ne.
Qed.

(** The heap after the assignments to [name] and [brand] (lines 61-62). *)
Lemma update_text h g o data :
  h !! g = Some o →
  match patch_brand data with
  | Some b => assign (set_brand b) g
                (match patch_name data with
                 | Some n => assign (set_name n) g h
                 | None => h
                 end)
  | None => match patch_name data with
            | Some n => assign (set_name n) g h
            | None => h
            end
  end = <[g := patched (text_only data) o]> h.
Proof.
  intros Hg. destruct data as [[n|] [b|] p], o as [i n0 b0 p0 a0]; simpl.
  - rewrite (assign_insert h _ g _ Hg).
    erewrite assign_insert by (by eapply lookup_insert_here).
    by rewrite list_insert_insert_eq.
  - by rewrite (assign_insert h _ g _ Hg).
  - by rewrite (assign_insert h _ g _ Hg).
  - by rewrite list_insert_id.
Qed.

Lemma patched_price data o p :
  patch_price data = Some p →
  set_price (Num p) (patched (text_only data) o) = patched data o.
Proof. intros Hp. unfold set_price, patched. simpl. by rewrite Hp. Qed.

Lemma patched_no_price data o :
  patch_price data = None → patched (text_only data) o = patched data o.
Proof. intros Hp. unfold patched. simpl. by rewrite Hp. Qed.

(** [updateGadget] on a present key with an acceptable price. *)
Lemma updateGadget_accepted w key data now g o :
  map_get key (gadgets (this w)) = Some g →
  heap w !! g = Some o →
  (∀ p, patch_price data = Some p → (p <? 0)%float = false) →
  updateGadget w key data now =
  (Return (Some g),
   {| heap := <[g := patched data o]> (heap w) ++ [patched data o; patched data o];
      this := {| gadgets := gadgets (this w);
                 history := history (this w) ++
                   [{| action := UPDATE; gadget := S (List.length (heap w));
                       timestamp := now |}];
                 version := version (this w) |} |}).
Proof.
  intros Hkey Hg Hp. unfold updateGadget. rewrite Hkey.
  rewrite (update_text _ _ o) by done.
  assert (∀ h' o', h' = <[g := o']> (heap w) →
    (let '(h4, copy) := spread h' g in
     (Return (Some g), recordHistory {| heap := h4; this := this w |} UPDATE copy now)) =
    (Return (Some g),
     {| heap := <[g := o']> (heap w) ++ [o'; o'];
        this := {| gadgets := gadgets (this w);
                   history := history (this w) ++
                     [{| action := UPDATE; gadget := S (List.length (heap w));
                         timestamp := now |}];
                   version := version (this w) |} |})) as Hfinish.
  { intros h' o' ->. unfold spread, alloc.
    rewrite (lookup_insert_here _ _ o) by done.
    rewrite (recordHistory_eq _ _ _ _ o'); simpl.
    - rewrite length_app, length_insert, <- app_assoc. simpl.
      by replace (List.length (heap w) + 1) with (S (List.length (heap w))) by lia.
    - apply lookup_alloc_new. }
  destruct (patch_price data) as [p|] eqn:Hprice.
  - rewrite (Hp p eq_refl).
    rewrite (assign_insert _ _ g (patched (text_only data) o))
      by (by eapply lookup_insert_here).
    rewrite list_insert_insert_eq, (patched_price _ _ p Hprice).
    by apply Hfinish.
  - rewrite <- (patched_no_price data o Hprice). by apply Hfinish.
Qed.

(** [updateGadget] on a present key with a negative price. *)
Lemma updateGadget_rejected w key data now g o p :
  map_get key (gadgets (this w)) = Some g →
  heap w !! g = Some o →
  patch_price data = Some p → (p <? 0)%float = true →
  updateGadget w key data now =
  (Throw (Error "Price cannot be negative."),
   {| heap := <[g := patched (text_only data) o]> (heap w); this := this w |}).
Proof.
  intros Hkey Hg Hprice Hp. unfold updateGadget. rewrite Hkey.
  rewrite (update_text _ _ o), Hprice by done.
  by rewrite Hp.
Qed.

Lemma updateGadget_absent w key data now :
  map_get key (gadgets (this w)) = None →
  updateGadget w key data now = (Return None, w).
Proof. intros Hkey. unfold updateGadget. by rewrite Hkey. Qed.

(** *** Each operation keeps the invariant *)

Lemma wf_set_new h t k o ms :
  wf {| heap := h; this := t |} → id o = k → addedAt o = DateObj ms →
  wf {| heap := h ++ [o];
        this := {| gadgets := map_set k (List.length h) (gadgets t);
                   history := history t; version := version t |} |}.
Proof.
  intros Hwf Hid Hat.
  pose proof (wf_keeps h (h ++ [o]) t (keeps_app h [o]) Hwf) as [Hnd Hlive Hsnap Hapart].
  destruct Hwf as [_ _ Hsnap0 _]. simpl in *.
  constructor; simpl; [by apply map_set_NoDup | | done |].
  - intros k' g' [[-> ->]|[_ Hin]]%elem_of_map_set; [|auto|done].
    exists o, ms. by rewrite lookup_alloc_new.
  - intros k' g' e [[-> ->]|[_ Hin]]%elem_of_map_set He; [|eauto|done].
    destruct (Hsnap0 e He) as [o' Hg']. apply lookup_lt_Some in Hg'. lia.
Qed.

Lemma wf_addGadget w n b p random created recorded :
  wf w → wf (addGadget w n b p random created recorded).2.
Proof.
  intros Hwf. unfold addGadget, alloc.
  destruct (_ || _); simpl; [done|].
  apply wf_recordHistory; simpl; [|by rewrite lookup_alloc_new].
  destruct w as [h t]. by eapply wf_set_new.
Qed.

Lemma wf_updateGadget w key data now :
  wf w → wf (updateGadget w key data now).2.
Proof.
  intros Hwf. destruct (map_get key (gadgets (this w))) as [g|] eqn:Hkey.
  2: { by rewrite updateGadget_absent. }
  destruct (wf_live w Hwf key g) as (o & ms & Hg & Hid & Hat);
    [by apply map_get_Some_elem_of|].
  destruct w as [h t]. simpl in *.
  destruct (patch_price data) as [p|] eqn:Hprice;
    [destruct (p <? 0)%float eqn:Hneg|].
  - erewrite updateGadget_rejected by done. simpl.
    eapply wf_keeps; [|exact Hwf]. by eapply keeps_insert.
  - erewrite updateGadget_accepted
      by (done || (intros p0 Hp0; rewrite Hprice in Hp0; by simplify_eq)). simpl.
    apply (wf_snapshot (<[g := patched data o]> h) t).
    + eapply wf_keeps; [|exact Hwf]. by eapply keeps_insert.
    + rewrite length_app, length_insert. simpl. lia.
  - erewrite updateGadget_accepted
      by (done || (intros p0 Hp0; rewrite Hprice in Hp0; by simplify_eq)). simpl.
    apply (wf_snapshot (<[g := patched data o]> h) t).
    + eapply wf_keeps; [|exact Hwf]. by eapply keeps_insert.
    + rewrite length_app, length_insert. simpl. lia.
Qed.

Lemma wf_deleteGadget w key now : wf w → wf (deleteGadget w key now).2.
Proof.
  intros Hwf. unfold deleteGadget.
  destruct (map_get key (gadgets (this w))) as [g|] eqn:Hkey; simpl; [|done].
  destruct (wf_live w Hwf key g) as (o & ms & Hg & _);
    [by apply map_get_Some_elem_of|].
  apply wf_recordHistory; simpl; [|eauto].
  destruct Hwf as [Hnd Hlive Hsnap Hapart].
  constructor; simpl; [by apply map_delete_NoDup | | done |].
  - intros k g' Hin%elem_of_map_delete. auto.
  - intros k g' e Hin%elem_of_map_delete. eauto.
Qed.


Lemma assign_new h f o : assign f (List.length h) (h ++ [o]) = h ++ [f o].
Proof.
  unfold assign. rewrite <- (Nat.add_0_r (List.length h)). by rewrite alter_app_r.
Qed.

Lemma import_gadgets_cons w (x : WireGadget IsoText) xs :
  import_gadgets w (Some x :: xs) =
  import_gadgets
    {| heap := heap w ++ [imported_gadget x];
       this := {| gadgets := map_set (w_id x) (List.length (heap w)) (gadgets (this w));
                  history := history (this w);
                  version := version (this w) |} |} xs.
Proof. simpl. unfold alloc. by rewrite assign_new. Qed.

Lemma wf_import_gadgets xs w : wf w → wf (import_gadgets w xs).2.
Proof.
  revert w. induction xs as [|[x|] xs IH]; intros w Hwf; [done | | done].
  rewrite import_gadgets_cons. apply IH.
  destruct w as [h t]. by eapply wf_set_new.
Qed.

Lemma import_history_heap hs h :
  ∃ new, (import_history h hs).2 = h ++ new ∧
         ∀ es, (import_history h hs).1 = Return es →
               Forall (λ e, List.length h ≤ gadget e < List.length (h ++ new)) es.
Proof.
  revert h. induction hs as [|[e|] hs IH]; intros h; simpl.
  - exists []. rewrite app_nil_r. split; [done|]. intros es [= <-]. constructor.
  - unfold alloc. set (o := parsed_gadget (w_gadget e)).
    destruct (IH (h ++ [o])) as (new & Hh & Hes).
    destruct (import_history (h ++ [o]) hs) as [[es|x] h2]; simpl in *;
      exists (o :: new); (split; [by rewrite Hh, <- app_assoc|]); [|done].
    intros es' [= <-]. rewrite length_app in *. simpl in *.
    constructor; simpl; [lia|].
    eapply Forall_impl; [by apply Hes|]. simpl. intros e'.
    rewrite !length_app. simpl. lia.
  - exists []. rewrite app_nil_r. done.
Qed.

Lemma wf_replace_history h t new es v :
  wf {| heap := h; this := t |} →
  Forall (λ e, List.length h ≤ gadget e < List.length (h ++ new)) es →
  wf {| heap := h ++ new;
        this := {| gadgets := gadgets t; history := es; version := v |} |}.
Proof.
  intros Hwf Hes.
  pose proof (wf_keeps h (h ++ new) t (keeps_app h new) Hwf) as [Hnd Hlive _ _].
  destruct Hwf as [_ Hlive0 _ _]. rewrite Forall_forall in Hes.
  simpl in *. constructor; simpl; [done | done | |].
  - intros e He. apply lookup_lt_is_Some. by apply Hes.
  - intros k g e Hin He. destruct (Hlive0 k g Hin) as (o & _ & Hg%lookup_lt_Some & _).
    apply Hes in He. lia.
Qed.

Lemma wf_importEncrypted w e secret : wf w → wf (importEncrypted w e secret).2.
Proof.
  intros Hwf. unfold importEncrypted.
  destruct (aes_decrypt _ _ _) as [decrypted|]; [|done].
  destruct (JSON_parse decrypted) as [[|[xs|] [hs|] v]|]; try done.
  set (cleared := {| heap := heap w; this := _ |}).
  assert (wf cleared) as Hcleared.
  { destruct Hwf as [_ _ Hsnap _]. constructor; simpl; [constructor| |done|].
    - by intros k g Hin%elem_of_nil.
    - by intros k g e' Hin%elem_of_nil. }
  pose proof (wf_import_gadgets xs cleared Hcleared) as Hw1.
  destruct (import_gadgets cleared xs) as [[[]|x] [h1 t1]]; simpl in *; [|done].
  destruct (import_history_heap hs h1) as (new & Hh2 & Hes).
  destruct (import_history h1 hs) as [[es|x] h2]; simpl in *; subst h2.
  - apply wf_replace_history; auto.
  - eapply wf_keeps; [apply keeps_app | done].
Qed.

Lemma wf_initial h initialGadgets :
  well_typed h initialGadgets → wf (initial h initialGadgets).
Proof.
  unfold well_typed, initial, constructor. intros Hty.
  assert (∀ gs m, Forall (λ g, is_Some (getTime h g)) gs →
    wf {| heap := h; this := {| gadgets := m; history := []; version := 1 |} |} →
    wf {| heap := h;
          this := {| gadgets := foldl (install h) m gs; history := []; version := 1 |} |})
    as Hfold.
  { induction gs as [|g gs IH]; intros m Hgs Hm; simpl; [done|].
    apply Forall_cons in Hgs as [[t Ht] Hgs]. apply IH; [done|].
    apply getTime_Some in Ht as (o & Hg & Hat). unfold install. rewrite Hg.
    destruct Hm as [Hnd Hlive _ _]. simpl in *.
    constructor; simpl; [by apply map_set_NoDup | | |].
    - intros k g' [[-> ->]|[_ Hin]]%elem_of_map_set; [eauto|auto|done].
    - by intros e' He%elem_of_nil.
    - by intros k g' e' _ He%elem_of_nil. }
  assert (wf {| heap := h;
                this := {| gadgets := []; history := []; version := 1 |} |}) as Hempty.
  { constructor; simpl; [constructor| | |].
    - by intros k g Hin%elem_of_nil.
    - by intros e' He%elem_of_nil.
    - by intros k g e' Hin%elem_of_nil. }
  destruct initialGadgets as [gs|]; simpl in *; [by apply Hfold | done].
Qed.

Lemma wf_step w op : wf w → wf (step w op).
Proof.
  destruct op; simpl;
    auto using wf_addGadget, wf_updateGadget, wf_deleteGadget, wf_importEncrypted.
Qed.

Lemma wf_run ops w : wf w → wf (run w ops).
Proof.
  revert w. induction ops as [|op ops IH]; intros w Hwf; simpl; [done|].
  apply IH. by apply wf_step.
Qed.

Lemma reachable_wf w : reachable w → wf w.
Proof. intros (h & gs & ops & Hty & ->). by apply wf_run, wf_initial. Qed.

End Invariant.

(** ** The operations, one by one *)

Section Operations.
Context {R : Runtime}.
Implicit Types (w : World) (h : Heap) (g : ref) (o : Gadget).

Lemma listGadgets_wf w :
  wf w →
  listGadgets w =
  Return (Array_sort (byAddedAtDesc (heap w)) (map_values (gadgets (this w)))) ∧
  Forall (λ g, is_Some (getTime (heap w) g)) (map_values (gadgets (this w))).
Proof.
  intros Hwf.
  assert (Forall (λ g, is_Some (getTime (heap w) g)) (map_values (gadgets (this w))))
    as Hall.
  { apply Forall_forall. intros g ([k g'] & -> & Hin)%list_elem_of_fmap. simpl.
    destruct (wf_live w Hwf k g' Hin) as (o & ms & Hg & _ & Hat).
    exists ms. apply getTime_Some. eauto. }
  split; [|done]. unfold listGadgets.
  replace (forallb _ _) with true; [done|].
  symmetry. apply forallb_forall. intros g Hin%list_elem_of_In.
  apply bool_decide_eq_true. rewrite Forall_forall in Hall. auto.
Qed.

(** C5: [addGadget] with an empty name, an empty brand or a negative price
    throws the validation error and leaves the world as it was: no object
    is stored and no history entry is recorded. *)
Theorem addGadget_rejects_invalid w n b p random created recorded :
  n = "" ∨ b = "" ∨ (p <? 0)%float = true →
  addGadget w n b p random created recorded =
  (Throw (Error "Invalid gadget data."), w).
Proof.
  intros Hbad. unfold addGadget.
  replace (_ || _) with true; [done|]. symmetry.
  destruct Hbad as [-> | [-> | Hp]].
  - done.
  - by rewrite orb_true_r.
  - apply orb_true_intro. by right.
Qed.

(** C7: in every reachable world [listGadgets] returns the objects of the
    map, each exactly once, ordered by [addedAt] from the latest to the
    earliest; objects with one and the same [addedAt] keep the order in
    which the map holds them (the sort is stable). *)
Theorem listGadgets_sorted_desc w :
  reachable w →
  ∃ l, listGadgets w = Return l ∧
       l ≡ₚ map_values (gadgets (this w)) ∧
       Forall (λ g, is_Some (getTime (heap w) g)) l ∧
       StronglySorted (desc (addedAt_ms (heap w))) l ∧
       ∀ t, filter (λ g, addedAt_ms (heap w) g = t) l =
            filter (λ g, addedAt_ms (heap w) g = t) (map_values (gadgets (this w))).
Proof.
  intros Hwf%reachable_wf. destruct (listGadgets_wf w Hwf) as [-> Hall].
  eexists. split; [done|].
  assert (∀ a b, byAddedAtDesc (heap w) a b =
                 (addedAt_ms (heap w) b - addedAt_ms (heap w) a)%Z) as Hcmp by done.
  split_and!.
  - apply Array_sort_perm.
  - by rewrite Array_sort_perm.
  - by apply Array_sort_sorted.
  - intros t. by apply Array_sort_stable.
Qed.

(** C6: [deleteGadget] returns [false] and changes nothing when the key is
    absent.  When the key is present it returns [true], takes the key out of
    the map, so that the object is no longer listed while every other object
    still is, and appends exactly one DELETE entry whose snapshot is a new
    object holding the values the deleted object had. *)
Theorem deleteGadget_spec w key now :
  reachable w →
  match map_get key (gadgets (this w)) with
  | None => deleteGadget w key now = (false, w)
  | Some g =>
      ∃ o copy l l',
        let w' := (deleteGadget w key now).2 in
        ((deleteGadget w key now).1 = true ∧
        heap w !! g = Some o ∧
        (key ∉ map_keys (gadgets (this w'))) ∧
        listGadgets w = Return l ∧ listGadgets w' = Return l' ∧
        g ∈ l ∧ (g ∉ l') ∧ (∀ g', g' ∈ l' ↔ g' ∈ l ∧ g' ≠ g) ∧
        (∀ g' o', g' ∈ l' → heap w' !! g' = Some o' → id o' ≠ key) ∧
        history (this w') =
          history (this w) ++ [{| action := DELETE; gadget := copy; timestamp := now |}] ∧
        copy ≠ g ∧ heap w !! copy = None ∧ heap w' !! copy = Some o)
  end.
Proof.
  intros Hwf%reachable_wf.
  pose proof (wf_deleteGadget w key now Hwf) as Hwf'.
  unfold deleteGadget in *.
  destruct (map_get key (gadgets (this w))) as [g|] eqn:Hkey; [|done].
  pose proof (map_get_Some_elem_of _ _ _ Hkey) as Hin.
  destruct (wf_live w Hwf key g Hin) as (o & ms & Hg & Hid & Hat).
  rewrite (recordHistory_eq _ _ _ _ o) in * by done. simpl in *.
  destruct (listGadgets_wf _ Hwf) as [Hl _], (listGadgets_wf _ Hwf') as [Hl' _].
  simpl in *.
  pose proof (wf_keys w Hwf) as Hnd.
  assert (∀ k' g', (k', g') ∈ map_delete key (gadgets (this w)) → k' ≠ key) as Hgone.
  { intros k' g' Hin' ->. eapply map_keys_delete_gone; [exact Hnd|].
    by eapply elem_of_map_keys. }
  assert (∀ g', g' ∈ map_values (map_delete key (gadgets (this w))) ↔
                g' ∈ map_values (gadgets (this w)) ∧ g' ≠ g) as Hvalues.
  { intros g'. split.
    - intros ([k' g''] & -> & Hin')%list_elem_of_fmap. simpl.
      pose proof (Hgone _ _ Hin') as Hne. apply elem_of_map_delete in Hin'.
      split; [by eapply elem_of_map_values|]. intros ->.
      destruct (wf_live w Hwf k' g Hin') as (o' & _ & Hg' & Hid' & _). congruence.
    - intros [([k' g''] & -> & Hin')%list_elem_of_fmap Hne]. simpl in *.
      eapply elem_of_map_values, elem_of_map_delete_ne; [done|].
      intros ->. apply Hne. pose proof (elem_of_map_get _ _ _ Hnd Hin'). congruence. }
  eexists o, (List.length (heap w)), _, _.
  split_and!; try done.
  - by apply map_keys_delete_gone.
  - rewrite Array_sort_perm. by eapply elem_of_map_values.
  - rewrite Array_sort_perm, Hvalues. tauto.
  - intros g'. by rewrite !Array_sort_perm.
  - intros g' o'. rewrite Array_sort_perm.
    intros ([k' g''] & -> & Hin')%list_elem_of_fmap Hg'. simpl in *.
    destruct (wf_live _ Hwf' k' g'' Hin') as (o'' & _ & Hg'' & Hid'' & _).
    simpl in *. pose proof (Hgone _ _ Hin'). congruence.
  - apply lookup_lt_Some in Hg. lia.
  - by apply lookup_ge_None.
  - apply lookup_alloc_new.
Qed.

(** C8: [updateGadget] on an absent key returns [null], throws nothing and
    leaves the world, history included, as it was.  On a present key, with a
    price that is omitted or that is not below zero, it returns the stored
    object, in which exactly the provided properties have their new values;
    the map and every other object are untouched and one UPDATE entry is
    appended, whose snapshot holds the values after the update. *)
Theorem updateGadget_spec w key data now :
  reachable w →
  (map_get key (gadgets (this w)) = None →
   updateGadget w key data now = (Return None, w)) ∧
  (∀ g, map_get key (gadgets (this w)) = Some g →
        (∀ p, patch_price data = Some p → (p <? 0)%float = false) →
        ∃ o copy,
          let w' := (updateGadget w key data now).2 in
          ((updateGadget w key data now).1 = Return (Some g) ∧
          heap w !! g = Some o ∧
          heap w' !! g = Some (patched data o) ∧
          gadgets (this w') = gadgets (this w) ∧
          (∀ g', g' ≠ g → g' < List.length (heap w) → heap w' !! g' = heap w !! g') ∧
          history (this w') =
            history (this w) ++ [{| action := UPDATE; gadget := copy; timestamp := now |}] ∧
          copy ≠ g ∧ heap w !! copy = None ∧ heap w' !! copy = Some (patched data o))).
Proof.
  intros Hwf%reachable_wf. split; [apply updateGadget_absent|].
  intros g Hkey Hprice.
  destruct (wf_live w Hwf key g) as (o & ms & Hg & _); [by apply map_get_Some_elem_of|].
  pose proof (lookup_lt_Some _ _ _ Hg) as Hlt.
  exists o, (S (List.length (heap w))).
  rewrite (updateGadget_accepted w key data now g o) by done. simpl.
  split_and!; try done.
  - rewrite lookup_app_l by (rewrite length_insert; lia).
    by eapply lookup_insert_here.
  - intros g' Hne Hlt'. rewrite lookup_app_l by (rewrite length_insert; lia).
    by rewrite list_lookup_insert_ne.
  - lia.
  - apply lookup_ge_None. lia.
  - rewrite lookup_app_r; rewrite length_insert; [|lia].
    by replace (S (List.length (heap w)) - List.length (heap w)) with 1 by lia.
Qed.

(** C9: a history snapshot is an object of its own, never one of the objects
    the map holds, and a call of [updateGadget], whatever it returns or
    throws, leaves every entry recorded before it in place and leaves the
    object of its snapshot as it was. *)
Theorem history_snapshots_independent w key data now :
  reachable w →
  let w' := (updateGadget w key data now).2 in
  ((∀ k g e, (k, g) ∈ gadgets (this w) → e ∈ history (this w) → gadget e ≠ g) ∧
   history (this w) `prefix_of` history (this w') ∧
   (∀ e, e ∈ history (this w) → heap w' !! gadget e = heap w !! gadget e)).
Proof.
  intros Hwf%reachable_wf. split; [apply (wf_apart w Hwf)|].
  destruct (map_get key (gadgets (this w))) as [g|] eqn:Hkey.
  2: { by rewrite updateGadget_absent. }
  pose proof (map_get_Some_elem_of _ _ _ Hkey) as Hin.
  destruct (wf_live w Hwf key g Hin) as (o & ms & Hg & _).
  assert (∀ e o', e ∈ history (this w) →
            <[g := o']> (heap w) !! gadget e = heap w !! gadget e) as Hsnap.
  { intros e o' He. apply list_lookup_insert_ne.
    intros Heq. by apply (wf_apart w Hwf key g e). }
  destruct (patch_price data) as [p|] eqn:Hprice;
    [destruct (p <? 0)%float eqn:Hneg|].
  - erewrite updateGadget_rejected by done. simpl. split; [done|]. auto.
  - erewrite updateGadget_accepted
      by (done || (intros p0 Hp0; rewrite Hprice in Hp0; by simplify_eq)). simpl.
    split; [by apply prefix_app_r|]. intros e He.
    destruct (wf_snapshots w Hwf e He) as [o' Ho'%lookup_lt_Some].
    rewrite lookup_app_l by (rewrite length_insert; lia). auto.
  - erewrite updateGadget_accepted
      by (done || (intros p0 Hp0; rewrite Hprice in Hp0; by simplify_eq)). simpl.
    split; [by apply prefix_app_r|]. intros e He.
    destruct (wf_snapshots w Hwf e He) as [o' Ho'%lookup_lt_Some].
    rewrite lookup_app_l by (rewrite length_insert; lia). auto.
Qed.

Lemma map_get_install h (m : JsMap ref) g k :
  map_get k (install h m g) =
  if decide (id <$> h !! g = Some k) then Some g else map_get k m.
Proof.
  unfold install. destruct (h !! g) as [o|]; simpl.
  - rewrite map_get_set. repeat case_decide; naive_solver.
  - done.
Qed.

Lemma map_get_foldl_install h gs (m : JsMap ref) k :
  map_get k (foldl (install h) m gs) =
  match last (filter (λ g, id <$> h !! g = Some k) gs) with
  | Some g => Some g
  | None => map_get k m
  end.
Proof.
  revert m. induction gs as [|g gs IH]; intros m; simpl; [done|].
  rewrite IH, map_get_install, filter_cons.
  destruct (decide (id <$> h !! g = Some k)); [|done].
  rewrite last_cons. by destruct (last _).
Qed.

Lemma NoDup_foldl_install h gs (m : JsMap ref) :
  NoDup (map_keys m) → NoDup (map_keys (foldl (install h) m gs)).
Proof.
  revert m. induction gs as [|g gs IH]; intros m Hnd; simpl; [done|].
  apply IH. unfold install. destruct (h !! g); [by apply map_set_NoDup | done].
Qed.

(** The object the constructor leaves under an id is the last supplied one
    that has this id, and the map holds supplied objects only. *)
Lemma constructor_last_per_id h gs :
  (∀ k, map_get k (gadgets (constructor h (Some gs))) =
        last (filter (λ g, id <$> h !! g = Some k) gs)) ∧
  (∀ k g, (k, g) ∈ gadgets (constructor h (Some gs)) →
          g ∈ gs ∧ id <$> h !! g = Some k).
Proof.
  split.
  - intros k. simpl. rewrite map_get_foldl_install. by destruct (last _).
  - intros k g Hin. simpl in Hin. apply elem_of_map_get in Hin.
    + rewrite map_get_foldl_install in Hin.
      destruct (last _) as [g'|] eqn:Hlast; [|done]. injection Hin as ->.
      apply last_Some_elem_of, list_elem_of_filter in Hlast. tauto.
    + apply NoDup_foldl_install. constructor.
Qed.

(** C10, amended: the constructor records no history and sets version 1.
    Given [initialGadgets] in which no two objects share an id, it puts every
    supplied object under the object's own id, as the very object that was
    supplied and whatever its name, brand and price are, and the map holds
    nothing else. *)
Theorem constructor_installs_distinct_ids h gs :
  (∀ g g' o o', g ∈ gs → g' ∈ gs → h !! g = Some o → h !! g' = Some o' →
                id o = id o' → g = g') →
  history (constructor h (Some gs)) = [] ∧
  version (constructor h (Some gs)) = 1%Z ∧
  (∀ g o, g ∈ gs → h !! g = Some o →
          map_get (id o) (gadgets (constructor h (Some gs))) = Some g) ∧
  (∀ k g, (k, g) ∈ gadgets (constructor h (Some gs)) →
          g ∈ gs ∧ id <$> h !! g = Some k) ∧
  constructor h None = {| gadgets := []; history := []; version := 1 |}.
Proof.
  intros Hdistinct.
  destruct (constructor_last_per_id h gs) as [Hlast Honly].
  split_and!; try done.
  intros g o Hin Hg. rewrite Hlast.
  destruct (last _) as [g'|] eqn:Hg'.
  - apply last_Some_elem_of, list_elem_of_filter in Hg' as [Hid Hin'].
    destruct (h !! g') as [o'|] eqn:Ho'; [|done]. simpl in Hid.
    f_equal. apply (Hdistinct g' g o' o); try done. congruence.
  - apply last_None in Hg'.
    assert (g ∈ filter (λ g, id <$> h !! g = Some (id o)) gs) as Hf.
    { apply list_elem_of_filter. split; [by rewrite Hg | done]. }
    rewrite Hg' in Hf. by apply elem_of_nil in Hf.
Qed.

(** *** Failing calls *)

(** X24: on a present key a patch with a negative price and nothing else
    makes [updateGadget] throw and changes nothing. *)
Lemma updateGadget_price_only_rejected w key p now :
  is_Some (map_get key (gadgets (this w))) → (p <? 0)%float = true →
  updateGadget w key {| patch_name := None; patch_brand := None; patch_price := Some p |} now
  = (Throw (Error "Price cannot be negative."), w).
Proof.
  intros [g Hkey] Hp. unfold updateGadget. rewrite Hkey. simpl.
  rewrite Hp. by destruct w.
Qed.

(** C3: for a stored gadget, a patch with a new name and a negative price
    makes [updateGadget] throw, and yet the stored object has the new name
    afterwards: line 61 assigns the name before line 64 checks the price.
    The tracker itself (map, history, version) is as before, so no history
    entry tells of the change. *)
Theorem updateGadget_negative_price_renames w key n p now g o :
  map_get key (gadgets (this w)) = Some g →
  heap w !! g = Some o →
  (p <? 0)%float = true →
  let data := {| patch_name := Some n; patch_brand := None; patch_price := Some p |} in
  (updateGadget w key data now).1 = Throw (Error "Price cannot be negative.") ∧
  heap (updateGadget w key data now).2 !! g = Some (set_name n o) ∧
  this (updateGadget w key data now).2 = this w.
Proof.
  intros Hkey Hg Hp data.
  rewrite (updateGadget_rejected w key data now g o p) by done. simpl.
  split_and!; [done | | done].
  erewrite lookup_insert_here by done. by destruct o.
Qed.

(** X23: an import that throws anything but a TypeError throws before line
    136 and changes nothing: this covers a failing decipher, a JSON syntax
    error and the shape check of lines 132-134. *)
Lemma importEncrypted_early_failure w e secret x :
  (importEncrypted w e secret).1 = Throw x → x ≠ TypeError →
  (importEncrypted w e secret).2 = w.
Proof.
  unfold importEncrypted.
  destruct (aes_decrypt _ _ _) as [decrypted|]; [|done].
  destruct (JSON_parse decrypted) as [[|[xs|] [hs|] v]|]; try done.
  set (cleared := {| heap := heap w; this := _ |}). clearbody cleared.
  assert (∀ xs c y, (import_gadgets c xs).1 = Throw y → y = TypeError) as Hgadgets.
  { clear. induction xs as [|[x|] xs IH]; intros c y; simpl.
    - done.
    - unfold alloc. apply IH.
    - by intros [= <-]. }
  assert (∀ hs h y, (import_history h hs).1 = Throw y → y = TypeError) as Hhistory.
  { clear. induction hs as [|[e|] hs IH]; intros h y; simpl.
    - done.
    - unfold alloc. specialize (IH (h ++ [parsed_gadget (w_gadget e)]) y).
      destruct (import_history _ hs) as [[es|y'] h2]; simpl in *; [done|].
      intros [= ->]. auto.
    - by intros [= <-]. }
  specialize (Hgadgets xs cleared). specialize (Hhistory hs).
  destruct (import_gadgets cleared xs) as [[[]|y] w1]; simpl in *.
  - specialize (Hhistory (heap w1)).
    destruct (import_history (heap w1) hs) as [[es|y] h2]; simpl in *; [done|].
    intros [= ->] Hx. by destruct Hx; auto.
  - intros [= ->] Hx. by destruct Hx; auto.
Qed.

(** C2: an export whose payload has the right shape and [null] as the first
    element of [gadgets] passes the check of lines 132-134; line 136 then
    empties the map and line 138 throws a TypeError.  The import fails and
    the gadgets the store held are gone. *)
Theorem importEncrypted_null_gadget_clears w e secret decrypted xs hs v :
  aes_decrypt (createKey secret) (bufferFromHex (enc_iv e)) (enc_data e) = Some decrypted →
  JSON_parse decrypted = Some (DocObject (Some (None :: xs)) (Some hs) v) →
  importEncrypted w e secret =
  (Throw TypeError,
   {| heap := heap w;
      this := {| gadgets := []; history := history (this w);
                 version := version (this w) |} |}).
Proof. intros Hdec Hparse. unfold importEncrypted. by rewrite Hdec, Hparse. Qed.

End Operations.

(** ** The data-model invariant along a run *)

Section Validity.
Context {R : Runtime}.
Implicit Types (w : World) (h : Heap) (g : ref) (o : Gadget).

Lemma all_valid_grow h new t t' :
  gadgets t' = gadgets t →
  all_valid {| heap := h; this := t |} →
  all_valid {| heap := h ++ new; this := t' |}.
Proof.
  intros Heq Hv k g Hin. simpl in *. rewrite Heq in Hin.
  destruct (Hv k g Hin) as (o & Hg & Ho). exists o.
  split; [by apply lookup_app_l_Some | done].
Qed.

Lemma recordHistory_grows w a g now :
  ∃ new, heap (recordHistory w a g now) = heap w ++ new ∧
         gadgets (this (recordHistory w a g now)) = gadgets (this w).
Proof.
  unfold recordHistory, spread, alloc. destruct (heap w !! g) as [o|]; simpl.
  - by exists [o].
  - exists []. by rewrite app_nil_r.
Qed.

Lemma all_valid_recordHistory w a g now :
  all_valid w → all_valid (recordHistory w a g now).
Proof.
  intros Hv. destruct (recordHistory_grows w a g now) as (new & Hh & Hg).
  destruct (recordHistory w a g now) as [h' t']. simpl in *. subst h'.
  destruct w as [h t]. simpl in *. by apply (all_valid_grow h new t).
Qed.

Lemma all_valid_set_new h t k o :
  all_valid {| heap := h; this := t |} → valid_gadget o →
  all_valid {| heap := h ++ [o];
               this := {| gadgets := map_set k (List.length h) (gadgets t);
                          history := history t; version := version t |} |}.
Proof.
  intros Hv Ho k' g' [[= -> ->]|Hin]%elem_of_map_set_weak; simpl in *.
  - exists o. by rewrite lookup_alloc_new.
  - destruct (Hv k' g' Hin) as (o' & Hg' & Ho'). exists o'.
    split; [by apply lookup_app_l_Some | done].
Qed.

Lemma all_valid_addGadget w n b p random created recorded :
  is_nan p = false →
  all_valid w → all_valid (addGadget w n b p random created recorded).2.
Proof.
  intros Hnan Hv. unfold addGadget, alloc.
  destruct (_ || _) eqn:Hcheck; simpl; [done|].
  apply orb_false_elim in Hcheck as [[Hn Hb]%orb_false_elim Hp].
  apply all_valid_recordHistory. destruct w as [h t]. apply all_valid_set_new; [done|].
  split_and!; simpl.
  - intros ->. done.
  - intros ->. done.
  - exists p. split; [done|]. by apply not_negative_nonneg.
Qed.

Lemma valid_patched data o :
  patch_name data ≠ Some "" → patch_brand data ≠ Some "" →
  (∀ p, patch_price data = Some p → (0 <=? p)%float = true) →
  valid_gadget o → valid_gadget (patched data o).
Proof.
  intros Hn Hb Hp (Hno & Hbo & Hpo). unfold valid_gadget, patched. simpl.
  destruct data as [[n|] [b|] [p|]]; simpl in *; split_and!; try done;
    try (intros ->; done); (exists p; split; [done | by apply Hp]).
Qed.

Lemma all_valid_insert h t g o o' :
  h !! g = Some o → valid_gadget o' →
  all_valid {| heap := h; this := t |} →
  all_valid {| heap := <[g := o']> h; this := t |}.
Proof.
  intros Hg Ho' Hv k g' Hin. simpl in *.
  destruct (decide (g' = g)) as [->|Hne].
  - exists o'. by erewrite lookup_insert_here.
  - destruct (Hv k g' Hin) as (o'' & Hg' & Ho''). exists o''.
    by rewrite list_lookup_insert_ne.
Qed.

Lemma all_valid_updateGadget w key data now :
  patch_name data ≠ Some "" → patch_brand data ≠ Some "" →
  (∀ p, patch_price data = Some p → is_nan p = false) →
  all_valid w → all_valid (updateGadget w key data now).2.
Proof.
  intros Hn Hb Hnan Hv. destruct (map_get key (gadgets (this w))) as [g|] eqn:Hkey.
  2: { by rewrite updateGadget_absent. }
  destruct (Hv key g) as (o & Hg & Ho); [by apply map_get_Some_elem_of|].
  destruct w as [h t]. simpl in *.
  destruct (patch_price data) as [p|] eqn:Hprice;
    [destruct (p <? 0)%float eqn:Hneg|].
  - erewrite updateGadget_rejected by done. simpl.
    eapply all_valid_insert; [done | | done]. by apply valid_patched.
  - erewrite updateGadget_accepted
      by (done || (intros p0 Hp0; rewrite Hprice in Hp0; by simplify_eq)). simpl.
    apply (all_valid_grow _ _ t); [done|].
    eapply all_valid_insert; [done | | done].
    apply valid_patched; try done. intros p0 Hp0. rewrite Hprice in Hp0.
    simplify_eq. apply not_negative_nonneg; [done | by apply Hnan].
  - erewrite updateGadget_accepted
      by (done || (intros p0 Hp0; rewrite Hprice in Hp0; by simplify_eq)). simpl.
    apply (all_valid_grow _ _ t); [done|].
    eapply all_valid_insert; [done | | done].
    apply valid_patched; try done. intros p0 Hp0. rewrite Hprice in Hp0. by simplify_eq.
Qed.

Lemma all_valid_deleteGadget w key now :
  all_valid w → all_valid (deleteGadget w key now).2.
Proof.
  intros Hv. unfold deleteGadget.
  destruct (map_get key (gadgets (this w))) as [g|]; simpl; [|done].
  apply all_valid_recordHistory. intros k g' Hin%elem_of_map_delete.
  exact (Hv k g' Hin).
Qed.

Lemma all_valid_import_gadgets xs w :
  Forall (λ x, from_option valid_wire True x) xs →
  all_valid w → all_valid (import_gadgets w xs).2.
Proof.
  revert w. induction xs as [|[x|] xs IH]; intros w Hxs Hv; [done | | done].
  apply Forall_cons in Hxs as [Hx Hxs].
  rewrite import_gadgets_cons. apply IH; [done|].
  destruct w as [h t]. by apply all_valid_set_new.
Qed.

Lemma all_valid_importEncrypted w e secret :
  Forall (λ x, from_option valid_wire True x) (payload_gadgets e secret) →
  all_valid w → all_valid (importEncrypted w e secret).2.
Proof.
  unfold payload_gadgets, importEncrypted. intros Hxs Hv.
  destruct (aes_decrypt _ _ _) as [decrypted|]; simpl in *; [|done].
  destruct (JSON_parse decrypted) as [[|[xs|] [hs|] v]|]; try done.
  set (cleared := {| heap := heap w; this := _ |}).
  assert (all_valid cleared) as Hcleared.
  { by intros k g Hin%elem_of_nil. }
  pose proof (all_valid_import_gadgets xs cleared Hxs Hcleared) as Hw1.
  destruct (import_gadgets cleared xs) as [[[]|x] [h1 t1]]; simpl in *; [|done].
  destruct (import_history_heap hs h1) as (new & Hh2 & _).
  destruct (import_history h1 hs) as [[es|x] h2]; simpl in *; subst h2;
    by apply (all_valid_grow _ _ t1).
Qed.

(** C4, as the code has it: the gadgets of the store keep a non-empty name,
    a non-empty brand and a non-negative price along every run of add,
    update, delete and import calls, returning or throwing, in which the
    constructor was given valid gadgets, no add and no update is given NaN
    as the price, no update provides an empty name or brand, and the gadgets
    of every imported payload are valid. *)
Theorem valid_gadgets_preserved h initialGadgets ops :
  all_valid (initial h initialGadgets) →
  Forall checked ops →
  all_valid (run (initial h initialGadgets) ops).
Proof.
  generalize (initial h initialGadgets). intros w Hv Hops. revert w Hv.
  induction Hops as [|op ops Hop Hops IH]; intros w Hv; simpl; [done|].
  apply IH. destruct op; simpl in *.
  - by apply all_valid_addGadget.
  - destruct Hop as (Hn & Hb & Hnan). by apply all_valid_updateGadget.
  - by apply all_valid_deleteGadget.
  - by apply all_valid_importEncrypted.
Qed.

End Validity.

(** ** Export followed by import *)

Section RoundTrip.
Context {R : Runtime} {L : RuntimeLaws R}.
Implicit Types (w : World) (h : Heap) (g : ref) (o : Gadget).

Lemma imported_wire_gadget o ms :
  addedAt o = DateObj ms →
  imported_gadget (json_gadget (wire_gadget o)) = json_trip o.
Proof.
  destruct o as [i n b p a]. simpl. intros ->.
  unfold imported_gadget, set_addedAt, parsed_gadget, json_gadget, wire_gadget,
    json_trip, set_price. simpl.
  by rewrite parseDate_toISOString.
Qed.

Lemma import_gadgets_fresh (xs : list (WireGadget IsoText)) w :
  NoDup (map_keys (gadgets (this w)) ++ (w_id <$> xs)) →
  import_gadgets w (Some <$> xs) =
  (Return (),
   {| heap := heap w ++ (imported_gadget <$> xs);
      this := {| gadgets := gadgets (this w) ++
                            zip (w_id <$> xs) (seq (List.length (heap w)) (List.length xs));
                 history := history (this w);
                 version := version (this w) |} |}).
Proof.
  revert w. induction xs as [|x xs IH]; intros w Hnd.
  - simpl. rewrite !app_nil_r. by destruct w as [h []].
  - rewrite fmap_cons, import_gadgets_cons.
    assert (w_id x ∉ map_keys (gadgets (this w))) as Hfresh.
    { rewrite fmap_cons in Hnd. apply NoDup_app in Hnd as (_ & Hnd & _).
      intros Hin. apply (Hnd _ Hin), list_elem_of_here. }
    rewrite map_set_fresh by done. rewrite IH; simpl.
    + rewrite length_app, <- !app_assoc. simpl.
      by replace (List.length (heap w) + 1) with (S (List.length (heap w))) by lia.
    + unfold map_keys in *. rewrite fmap_app, <- app_assoc. simpl.
      by rewrite fmap_cons in Hnd.
Qed.

Lemma import_history_fresh (hs : list (WireEntry IsoText)) h :
  import_history h (Some <$> hs) =
  (Return (zip_with imported_entry hs (seq (List.length h) (List.length hs))),
   h ++ (parsed_gadget ∘ w_gadget <$> hs)).
Proof.
  revert h. induction hs as [|e hs IH]; intros h; simpl.
  - by rewrite app_nil_r.
  - unfold alloc. rewrite IH, length_app, <- app_assoc. simpl.
    by replace (List.length h + 1) with (S (List.length h)) by lia.
Qed.

Lemma lookup_block {A} (h l rest : list A) :
  (λ g, (h ++ l ++ rest) !! g) <$> seq (List.length h) (List.length l) = Some <$> l.
Proof.
  apply list_eq. intros i. rewrite !list_lookup_fmap.
  destruct (l !! i) as [x|] eqn:Hi; simpl.
  - pose proof (lookup_lt_Some _ _ _ Hi). rewrite lookup_seq_lt by done. simpl.
    rewrite lookup_app_r by lia.
    replace (List.length h + i - List.length h) with i by lia.
    by rewrite lookup_app_l, Hi.
  - apply lookup_ge_None in Hi. by rewrite lookup_seq_ge.
Qed.

Lemma imported_entries_view (hs : list (WireEntry IsoText)) h :
  entry_view (h ++ (parsed_gadget ∘ w_gadget <$> hs)) <$>
    zip_with imported_entry hs (seq (List.length h) (List.length hs))
  = wire_view <$> hs.
Proof.
  apply list_eq. intros i. rewrite !list_lookup_fmap, lookup_zip_with.
  destruct (hs !! i) as [e|] eqn:Hi; simpl; [|done].
  pose proof (lookup_lt_Some _ _ _ Hi). rewrite lookup_seq_lt by done. simpl.
  unfold entry_view, wire_view, snapshot_view. simpl.
  rewrite lookup_app_r by lia.
  replace (List.length h + i - List.length h) with i by lia.
  rewrite list_lookup_fmap, Hi. simpl. by destruct (w_gadget e).
Qed.

Lemma wire_view_json_entry (e : WireEntry IsoText) :
  wire_view (json_entry e) = wire_view e.
Proof. unfold wire_view. simpl. by rewrite json_gadget_idem. Qed.

Lemma exported_entries_view h (es : list GadgetHistoryEntry) :
  (∀ e, e ∈ es → is_Some (h !! gadget e)) →
  wire_view <$> omap (wire_entry h) es = entry_view h <$> es.
Proof.
  induction es as [|e es IH]; intros Hes; simpl; [done|].
  destruct (Hes e) as [o Ho]; [apply list_elem_of_here|].
  unfold wire_entry at 1. rewrite Ho. simpl. f_equal.
  - unfold wire_view, entry_view, snapshot_view. simpl.
    by rewrite Ho, parseDate_toISOString.
  - apply IH. intros e' He'. apply Hes. by apply list_elem_of_further.
Qed.

Lemma exported_gadgets h (m : JsMap ref) :
  (∀ k g, (k, g) ∈ m → ∃ o ms, h !! g = Some o ∧ id o = k ∧ addedAt o = DateObj ms) →
  ∃ objs,
    (λ g, h !! g) <$> map_values m = Some <$> objs ∧
    omap (λ g, wire_gadget <$> h !! g) (map_values m) = wire_gadget <$> objs ∧
    w_id <$> (json_gadget <$> (wire_gadget <$> objs)) = map_keys m ∧
    imported_gadget <$> (json_gadget <$> (wire_gadget <$> objs)) = json_trip <$> objs.
Proof.
  induction m as [|[k g] m IH]; intros Hm.
  - by exists [].
  - destruct (Hm k g) as (o & ms & Hg & Hid & Hat); [apply list_elem_of_here|].
    destruct IH as (objs & Hobjs & Hwire & Hids & Himp).
    { intros k' g' Hin. apply Hm. by apply list_elem_of_further. }
    exists (o :: objs). split_and!; simpl; rewrite ?Hg; simpl; f_equal; try done.
    by apply (imported_wire_gadget o ms).
Qed.

(** The outcome of importing an export, in full. *)
Lemma round_trip_import w secret iv w0 :
  wf w →
  ∃ objs : list Gadget,
    (λ g, heap w !! g) <$> map_values (gadgets (this w)) = Some <$> objs ∧
    importEncrypted w0 (exportEncrypted w secret iv) secret =
    (Return (),
     {| heap := (heap w0 ++ (json_trip <$> objs)) ++
                (parsed_gadget ∘ w_gadget <$>
                   (json_entry <$> omap (wire_entry (heap w)) (history (this w))));
        this :=
          {| gadgets := zip (map_keys (gadgets (this w)))
                            (seq (List.length (heap w0)) (List.length objs));
             history := zip_with imported_entry
                          (json_entry <$> omap (wire_entry (heap w)) (history (this w)))
                          (seq (List.length (heap w0 ++ (json_trip <$> objs)))
                               (List.length (json_entry <$>
                                  omap (wire_entry (heap w)) (history (this w)))));
             version := if (version (this w) =? 0)%Z then 1%Z else version (this w) |} |}).
Proof.
  intros Hwf.
  destruct (exported_gadgets (heap w) (gadgets (this w)) (wf_live w Hwf))
    as (objs & Hobjs & Hwire & Hids & Himp).
  exists objs. split; [done|].
  unfold importEncrypted, exportEncrypted. simpl.
  rewrite bufferFromHex_ivToHex, aes_decrypt_encrypt, JSON_parse_stringify.
  unfold doc_of_payload. simpl. rewrite Hwire.
  rewrite (list_fmap_compose json_gadget Some), (list_fmap_compose json_entry Some).
  rewrite import_gadgets_fresh by (simpl; rewrite Hids; apply (wf_keys w Hwf)).
  simpl. rewrite import_history_fresh. simpl.
  by rewrite Himp, Hids, !length_fmap.
Qed.

(** After the import the target holds, key by key, the gadgets of the
    exporting store as [JSON] returns them. *)
Lemma round_trip_gadgets w secret iv w0 :
  wf w →
  let w2 := (importEncrypted w0 (exportEncrypted w secret iv) secret).2 in
  map_keys (gadgets (this w2)) = map_keys (gadgets (this w)) ∧
  (λ g, heap w2 !! g) <$> map_values (gadgets (this w2)) =
  (λ g, json_trip <$> heap w !! g) <$> map_values (gadgets (this w)).
Proof.
  intros Hwf w2. subst w2.
  destruct (round_trip_import w secret iv w0 Hwf) as (objs & Hobjs & ->). simpl.
  assert (List.length (map_keys (gadgets (this w))) = List.length objs) as Hlen.
  { pose proof (f_equal List.length Hobjs) as Hlen.
    unfold map_values, map_keys in *. rewrite !length_fmap in Hlen.
    by rewrite length_fmap. }
  split.
  - unfold map_keys at 1. by rewrite fst_zip by (rewrite length_seq; lia).
  - unfold map_values at 1. rewrite snd_zip by (rewrite length_seq; lia).
    rewrite <- (length_fmap json_trip objs), <- app_assoc, lookup_block.
    transitivity (fmap json_trip <$>
                    ((λ g, heap w !! g) <$> map_values (gadgets (this w)))).
    + rewrite Hobjs. by rewrite <- !list_fmap_compose.
    + by rewrite <- list_fmap_compose.
Qed.

(** And a history that shows, entry by entry, what the history of the
    exporting store shows. *)
Lemma round_trip_history w secret iv w0 :
  wf w →
  let w2 := (importEncrypted w0 (exportEncrypted w secret iv) secret).2 in
  entry_view (heap w2) <$> history (this w2) = entry_view (heap w) <$> history (this w).
Proof.
  intros Hwf w2. subst w2.
  destruct (round_trip_import w secret iv w0 Hwf) as (objs & _ & ->). simpl.
  rewrite imported_entries_view, <- list_fmap_compose.
  rewrite (list_fmap_ext (wire_view ∘ json_entry) wire_view)
    by (intros; apply wire_view_json_entry).
  apply exported_entries_view, (wf_snapshots w Hwf).
Qed.

Lemma same_gadget_json_trip o :
  json_safe_price (price o) = true → same_gadget o (json_trip o).
Proof. intros Hsafe. split_and!; try done. by apply same_price_json. Qed.

Lemma same_gadget_parsed o :
  json_safe_price (price o) = true →
  same_gadget o (parsed_gadget (json_gadget (wire_gadget o))).
Proof. intros Hsafe. split_and!; try done. by apply same_price_json. Qed.

Lemma json_trip_same_stored h h' (l l' : list ref) :
  (λ g, h' !! g) <$> l' = (λ g, json_trip <$> h !! g) <$> l →
  (∀ g, g ∈ l → ∃ o, h !! g = Some o ∧ json_safe_price (price o) = true) →
  Forall2 (same_stored h h') l l'.
Proof.
  revert l'. induction l as [|g l IH]; intros [|g' l'] Heq Hsafe; try done.
  injection Heq as Hg' Heq. constructor.
  - destruct (Hsafe g) as (o & Hg & Ho); [apply list_elem_of_here|].
    exists o, (json_trip o). rewrite Hg' , Hg.
    split_and!; try done. by apply same_gadget_json_trip.
  - apply IH; [done|]. intros g0 Hin. apply Hsafe. by apply list_elem_of_further.
Qed.

Lemma omap_wire_entry_cons h (e : GadgetHistoryEntry) es o :
  h !! gadget e = Some o →
  omap (wire_entry h) (e :: es) =
  {| w_action := action e; w_gadget := wire_gadget o;
     w_timestamp := toISOString (timestamp e) |} :: omap (wire_entry h) es.
Proof. intros Ho. simpl. unfold wire_entry at 1. by rewrite Ho. Qed.

Lemma imported_same_entries h hpre (es : list GadgetHistoryEntry) :
  (∀ e, e ∈ es → ∃ o, h !! gadget e = Some o ∧ json_safe_price (price o) = true) →
  Forall2 (same_entry h (hpre ++ (parsed_gadget ∘ w_gadget <$>
                                    (json_entry <$> omap (wire_entry h) es))))
          es
          (zip_with imported_entry (json_entry <$> omap (wire_entry h) es)
             (seq (List.length hpre)
                  (List.length (json_entry <$> omap (wire_entry h) es)))).
Proof.
  revert hpre. induction es as [|e es IH]; intros hpre Hes; [constructor|].
  destruct (Hes e) as (o & Ho & Hsafe); [apply list_elem_of_here|].
  rewrite (omap_wire_entry_cons h e es o Ho), !fmap_cons. simpl.
  constructor.
  - split_and!; simpl; [done | by rewrite parseDate_toISOString |].
    exists o, (parsed_gadget (json_gadget (wire_gadget o))).
    split_and!; [done | | by apply same_gadget_parsed].
    rewrite lookup_app_r by lia.
    by replace (List.length hpre - List.length hpre) with 0 by lia.
  - specialize (IH (hpre ++ [parsed_gadget (json_gadget (wire_gadget o))])).
    rewrite length_app, <- app_assoc in IH. simpl in IH.
    replace (List.length hpre + 1) with (S (List.length hpre)) in IH by lia.
    apply IH. intros e' He'. apply Hes. by apply list_elem_of_further.
Qed.

(** C1, amended: for a world reached by any run (of add, update and delete
    calls in particular) in which no gadget and no history snapshot has NaN
    or an infinity as its price, exporting under a secret and importing the
    export under the same secret into a fresh tracker succeeds, and the
    fresh tracker then holds the same ids in the same order, under each id a
    gadget with the same id, name and brand and a price that is [===], and a
    history that has, entry by entry, the same action, the same timestamp
    and a snapshot with the same id, name and brand and a price that is
    [===].  Every compared gadget and snapshot exists.  Moreover each gadget
    of the fresh tracker is the gadget of the exporting one as [JSON]
    returns it, [addedAt] included, and each snapshot is written by
    [JSON] as the snapshot of the exporting one is, the text of [addedAt]
    included. *)
Theorem export_import_round_trip_safe w secret iv h0 :
  reachable w →
  json_safe w = true →
  let e := exportEncrypted w secret iv in
  let w2 := (importEncrypted (initial h0 None) e secret).2 in
  ((importEncrypted (initial h0 None) e secret).1 = Return () ∧
   map_keys (gadgets (this w2)) = map_keys (gadgets (this w)) ∧
   Forall2 (same_stored (heap w) (heap w2))
           (map_values (gadgets (this w))) (map_values (gadgets (this w2))) ∧
   Forall2 (same_entry (heap w) (heap w2)) (history (this w)) (history (this w2)) ∧
   (λ g, heap w2 !! g) <$> map_values (gadgets (this w2)) =
     (λ g, json_trip <$> heap w !! g) <$> map_values (gadgets (this w)) ∧
   entry_view (heap w2) <$> history (this w2) =
     entry_view (heap w) <$> history (this w)).
Proof.
  intros Hwf%reachable_wf Hsafe e w2. subst e.
  unfold json_safe in Hsafe. rewrite forallb_forall in Hsafe.
  assert (∀ g, g ∈ map_values (gadgets (this w)) →
               ∃ o, heap w !! g = Some o ∧ json_safe_price (price o) = true) as Hlive.
  { intros g Hin. pose proof Hin as ([k g'] & -> & Hkg)%list_elem_of_fmap.
    destruct (wf_live w Hwf k g' Hkg) as (o & _ & Hg & _). simpl in *.
    exists o. split; [done|].
    specialize (Hsafe g'). rewrite Hg in Hsafe. apply Hsafe.
    apply in_or_app. left. by apply list_elem_of_In. }
  assert (∀ x, x ∈ history (this w) →
               ∃ o, heap w !! gadget x = Some o ∧ json_safe_price (price o) = true)
    as Hsnap.
  { intros x Hin. destruct (wf_snapshots w Hwf x Hin) as [o Hg].
    exists o. split; [done|].
    specialize (Hsafe (gadget x)). rewrite Hg in Hsafe. apply Hsafe.
    apply in_or_app. right. apply list_elem_of_In, list_elem_of_fmap. by exists x. }
  destruct (round_trip_gadgets w secret iv (initial h0 None) Hwf) as [Hkeys Hobjs].
  fold w2 in Hkeys, Hobjs.
  split_and!.
  - subst w2. by destruct (round_trip_import w secret iv (initial h0 None) Hwf)
      as (objs & _ & ->).
  - done.
  - by apply json_trip_same_stored.
  - subst w2. destruct (round_trip_import w secret iv (initial h0 None) Hwf)
      as (objs & _ & ->). simpl.
    by apply imported_same_entries.
  - done.
  - apply (round_trip_history w secret iv (initial h0 None) Hwf).
Qed.

End RoundTrip.

(** ** The model at work on the sample stores *)

Section Scenario.
#[local] Existing Instance plain_runtime.

#[local] Instance plain_laws : RuntimeLaws plain_runtime.
Proof.
  constructor; try done.
  intros k iv t. simpl. unfold plain_decrypt. by rewrite decide_True.
Qed.

Lemma example_world_reachable : reachable example_world.
Proof. exists [], None, example_ops. split; [constructor | reflexivity]. Qed.

(** [example.ts]: the most recently added gadget is listed first. *)
Example example_list : listGadgets example_world = Return [2; 0].
Proof. reflexivity. Qed.

Example example_total : totalValue example_world = 4898%float.
Proof. reflexivity. Qed.

Example example_history :
  action <$> getHistory example_world = [UPDATE; ADD; ADD] ∧
  timestamp <$> getHistory example_world = [3000; 2001; 1001]%Z.
Proof. by split. Qed.

Lemma addGadget_rejects_invalid_witness :
  ("Pixel" = "" ∨ "Google" = "" ∨ ((-5) <? 0)%float = true) ∧
  addGadget example_world "Pixel" "Google" (-5) "aa" 1 2 =
  (Throw (Error "Invalid gadget data."), example_world).
Proof.
  split; [right; right; reflexivity|].
  apply (addGadget_rejects_invalid example_world "Pixel" "Google" (-5) "aa" 1 2).
  right; right; reflexivity.
Defined.

Lemma listGadgets_sorted_desc_witness :
  reachable example_world ∧
  ∃ l, listGadgets example_world = Return l ∧
       l ≡ₚ map_values (gadgets (this example_world)) ∧
       Forall (λ g, is_Some (getTime (heap example_world) g)) l ∧
       StronglySorted (desc (addedAt_ms (heap example_world))) l ∧
       ∀ t, filter (λ g, addedAt_ms (heap example_world) g = t) l =
            filter (λ g, addedAt_ms (heap example_world) g = t)
                   (map_values (gadgets (this example_world))).
Proof.
  split; [exact example_world_reachable|].
  exact (listGadgets_sorted_desc example_world example_world_reachable).
Defined.

Lemma deleteGadget_spec_witness :
  reachable example_world ∧
  (deleteGadget example_world mac_key 4000).1 = true ∧
  listGadgets (deleteGadget example_world mac_key 4000).2 = Return [2].
Proof.
  split; [exact example_world_reachable|].
  pose proof (deleteGadget_spec example_world mac_key 4000 example_world_reachable) as H.
  change (map_get mac_key (gadgets (this example_world))) with (Some 0) in H.
  destruct H as (o & copy & l & l' & Htrue & _). split; [exact Htrue | reflexivity].
Defined.

Lemma updateGadget_spec_witness :
  reachable example_world ∧
  updateGadget example_world "gadget-none"
    {| patch_name := Some "x"; patch_brand := None; patch_price := None |} 4000
  = (Return None, example_world) ∧
  heap (updateGadget example_world mac_key
          {| patch_name := None; patch_brand := Some "Apple Inc.";
             patch_price := Some 2299%float |} 4000).2 !! 0
  = Some {| id := mac_key; name := "MacBook Pro"; brand := "Apple Inc.";
            price := Num 2299; addedAt := DateObj 1000 |}.
Proof.
  split; [exact example_world_reachable|]. split.
  - apply (updateGadget_spec example_world "gadget-none" _ 4000 example_world_reachable).
    reflexivity.
  - destruct (updateGadget_spec example_world mac_key
                {| patch_name := None; patch_brand := Some "Apple Inc.";
                   patch_price := Some 2299%float |} 4000 example_world_reachable)
      as [_ Hfound].
    destruct (Hfound 0) as (o & copy & _ & Ho & Hnew & _);
      [reflexivity | by intros p [= <-] |].
    injection Ho as <-. exact Hnew.
Defined.

Lemma history_snapshots_independent_witness :
  reachable example_world ∧
  history (this example_world) `prefix_of`
    history (this (updateGadget example_world mac_key
      {| patch_name := Some "MacBook Air"; patch_brand := None; patch_price := None |}
      4000).2).
Proof.
  split; [exact example_world_reachable|].
  apply (history_snapshots_independent example_world mac_key _ 4000
           example_world_reachable).
Defined.

Lemma updateGadget_negative_price_renames_witness :
  map_get mac_key (gadgets (this example_world)) = Some 0 ∧
  ((-1) <? 0)%float = true ∧
  heap (updateGadget example_world mac_key
          {| patch_name := Some "MacBook Air"; patch_brand := None;
             patch_price := Some (-1)%float |} 4000).2 !! 0
  = Some {| id := mac_key; name := "MacBook Air"; brand := "Apple";
            price := Num 2499; addedAt := DateObj 1000 |}.
Proof.
  split; [reflexivity|]. split; [reflexivity|].
  apply (updateGadget_negative_price_renames example_world mac_key "MacBook Air" (-1) 4000 0
           {| id := mac_key; name := "MacBook Pro"; brand := "Apple";
              price := Num 2499; addedAt := DateObj 1000 |});
    reflexivity.
Defined.

Lemma importEncrypted_null_gadget_clears_witness :
  aes_decrypt (createKey "k") (bufferFromHex (enc_iv null_export)) (enc_data null_export)
    = Some (DocObject (Some [None]) (Some []) (Some 1%Z)) ∧
  (importEncrypted example_world null_export "k").1 = Throw TypeError ∧
  gadgets (this (importEncrypted example_world null_export "k").2) = [] ∧
  gadgets (this example_world) ≠ [].
Proof.
  split; [reflexivity|].
  rewrite (importEncrypted_null_gadget_clears example_world null_export "k"
             (DocObject (Some [None]) (Some []) (Some 1%Z)) [] [] (Some 1%Z))
    by reflexivity.
  split_and!; [reflexivity | reflexivity | discriminate].
Defined.

Lemma valid_gadgets_preserved_witness :
  all_valid (initial [] None) ∧
  Forall checked (example_ops ++ [Delete mac_key 4000; Import checked_export "k"]) ∧
  all_valid (run (initial [] None)
               (example_ops ++ [Delete mac_key 4000; Import checked_export "k"])).
Proof.
  assert (all_valid (initial [] None)) as Hinit.
  { intros k g Hin. simpl in Hin. by apply elem_of_nil in Hin. }
  assert (Forall checked
            (example_ops ++ [Delete mac_key 4000; Import checked_export "k"])) as Hops.
  { repeat constructor; simpl; try done.
    - by intros p [= <-].
    - by exists 799%float. }
  split_and!; [exact Hinit | exact Hops |].
  exact (valid_gadgets_preserved [] None _ Hinit Hops).
Defined.

Lemma export_import_round_trip_safe_witness :
  reachable example_world ∧
  json_safe example_world = true ∧
  let w2 := (importEncrypted (initial [] None)
               (exportEncrypted example_world "my-super-secret-key" "00")
               "my-super-secret-key").2 in
  (importEncrypted (initial [] None)
     (exportEncrypted example_world "my-super-secret-key" "00")
     "my-super-secret-key").1 = Return () ∧
  Forall2 (same_stored (heap example_world) (heap w2))
          (map_values (gadgets (this example_world))) (map_values (gadgets (this w2))) ∧
  Forall2 (same_entry (heap example_world) (heap w2))
          (history (this example_world)) (history (this w2)).
Proof.
  split; [exact example_world_reachable|]. split; [reflexivity|].
  destruct (export_import_round_trip_safe example_world "my-super-secret-key" "00" []
              example_world_reachable eq_refl) as (Hret & _ & Hgadgets & Hhistory & _).
  split_and!; [exact Hret | exact Hgadgets | exact Hhistory].
Defined.

(** C1 as it is written fails on the code: after one [addGadget] with the
    price [Infinity], which line 39 accepts, the export writes the price as
    [null]; the import into a fresh tracker succeeds and the gadget it
    stores under the same id has the price [null], which is not the price
    of the gadget of the exporting store.  The same holds of the snapshot
    of the only history entry. *)
Lemma round_trip_loses_infinity :
  let w := priceless_world in
  let w2 := (importEncrypted (initial [] None) (exportEncrypted w "s" "00") "s").2 in
  reachable w ∧
  Forall no_import [Add "Mona Lisa" "Leonardo" infinity "0123456789ab" 10 11] ∧
  (importEncrypted (initial [] None) (exportEncrypted w "s" "00") "s").1 = Return () ∧
  map_get "gadget-0123456789ab" (gadgets (this w)) = Some 0 ∧
  map_get "gadget-0123456789ab" (gadgets (this w2)) = Some 0 ∧
  price <$> heap w !! 0 = Some (Num infinity) ∧
  price <$> heap w2 !! 0 = Some Null ∧
  ¬ same_stored (heap w) (heap w2) 0 0 ∧
  ¬ Forall2 (same_entry (heap w) (heap w2)) (history (this w)) (history (this w2)).
Proof.
  split_and!; try reflexivity.
  - exists [], None, [Add "Mona Lisa" "Leonardo" infinity "0123456789ab" 10 11].
    split; [constructor | reflexivity].
  - by repeat constructor.
  - intros (o & o' & [= <-] & [= <-] & _ & _ & _ & Hprice). exact Hprice.
  - intros Hall. apply Forall2_cons_1 in Hall as [(_ & _ & Hsame) _].
    destruct Hsame as (o & o' & [= <-] & [= <-] & _ & _ & _ & Hprice). exact Hprice.
Qed.

Lemma constructor_installs_distinct_ids_witness :
  (∀ g g' o o', g ∈ [0; 1] → g' ∈ [0; 1] →
                [unnamed_gadget; second_gadget] !! g = Some o →
                [unnamed_gadget; second_gadget] !! g' = Some o' →
                id o = id o' → g = g') ∧
  map_get "g1" (gadgets (constructor [unnamed_gadget; second_gadget] (Some [0; 1])))
    = Some 0 ∧
  map_get "g2" (gadgets (constructor [unnamed_gadget; second_gadget] (Some [0; 1])))
    = Some 1 ∧
  history (constructor [unnamed_gadget; second_gadget] (Some [0; 1])) = [].
Proof.
  assert (∀ g g' o o', g ∈ [0; 1] → g' ∈ [0; 1] →
                       [unnamed_gadget; second_gadget] !! g = Some o →
                       [unnamed_gadget; second_gadget] !! g' = Some o' →
                       id o = id o' → g = g') as Hdistinct.
  { intros g g' o o' _ _ Ho Ho' Hid.
    destruct g as [|[|g]], g' as [|[|g']]; simpl in *; by simplify_eq. }
  destruct (constructor_installs_distinct_ids [unnamed_gadget; second_gadget] [0; 1]
              Hdistinct) as (Hhistory & _ & Hget & _).
  split_and!; [exact Hdistinct | | | exact Hhistory].
  - apply (Hget 0 unnamed_gadget); [apply list_elem_of_here | reflexivity].
  - apply (Hget 1 second_gadget);
      [apply list_elem_of_further, list_elem_of_here | reflexivity].
Defined.

(** C10 as it is written fails on the code: given two objects with one and
    the same id, the constructor keeps the one supplied last; the one
    supplied first is not in the map, under no key. *)
Lemma constructor_drops_same_id :
  let t := constructor [unnamed_gadget; twin_gadget] (Some [0; 1]) in
  0 ∈ [0; 1] ∧
  [unnamed_gadget; twin_gadget] !! 0 = Some unnamed_gadget ∧
  gadgets t = [("g1", 1)] ∧
  map_get (id unnamed_gadget) (gadgets t) ≠ Some 0 ∧
  ∀ k, (k, 0) ∉ gadgets t.
Proof.
  split_and!; try done.
  - apply list_elem_of_here.
  - intros k Hin. simpl in Hin. apply list_elem_of_singleton in Hin. by simplify_eq.
Qed.

(** After an import the store lists its gadgets again ([addedAt] is a
    [Date]), while the [addedAt] of a history snapshot is the parsed text. *)
Example imported_dates :
  let w2 := (importEncrypted (initial [] None)
               (exportEncrypted example_world "s" "00") "s").2 in
  listGadgets w2 = Return [1; 0] ∧
  addedAt <$> heap w2 !! 0 = Some (DateObj 1000) ∧
  (gadget <$> history (this w2)) = [2; 3; 4] ∧
  addedAt <$> heap w2 !! 2 = Some (DateText 1000%Z).
Proof. by split_and!. Qed.

(** C4 as it is written fails on the code: a store can hold a gadget with an
    empty name and a negative price after the constructor was given one,
    one with an empty name after an update provided it, one with both
    after an import whose payload holds it, and one whose price is NaN after
    an add or an update was given NaN, of which [price < 0] is false. *)
Lemma invariant_not_enforced :
  (reachable (initial [unnamed_gadget] (Some [0])) ∧
   ¬ all_valid (initial [unnamed_gadget] (Some [0]))) ∧
  (reachable (run example_world
                [Update mac_key {| patch_name := Some ""; patch_brand := None;
                                   patch_price := None |} 4000]) ∧
   ¬ all_valid (run example_world
                  [Update mac_key {| patch_name := Some ""; patch_brand := None;
                                     patch_price := None |} 4000])) ∧
  (reachable (run example_world [Import unchecked_export "k"]) ∧
   ¬ all_valid (run example_world [Import unchecked_export "k"])) ∧
  (reachable (run example_world [Add "Pixel" "Google" nan "aa" 5000 5001]) ∧
   ¬ all_valid (run example_world [Add "Pixel" "Google" nan "aa" 5000 5001])) ∧
  (reachable (run example_world
                [Update mac_key {| patch_name := None; patch_brand := None;
                                   patch_price := Some nan |} 4000]) ∧
   ¬ all_valid (run example_world
                  [Update mac_key {| patch_name := None; patch_brand := None;
                                     patch_price := Some nan |} 4000])).
Proof.
  split_and!.
  - exists [unnamed_gadget], (Some [0]), []. split; [|reflexivity].
    repeat constructor. by exists 0%Z.
  - intros Hv. destruct (Hv "g1" 0) as (o & Ho & Hname & _); [apply list_elem_of_here|].
    injection Ho as <-. by apply Hname.
  - exists [], None, (example_ops ++ [Update mac_key {| patch_name := Some ""; patch_brand := None;
                                   patch_price := None |} 4000]).
    split; [constructor | reflexivity].
  - intros Hv. destruct (Hv mac_key 0) as (o & Ho & Hname & _); [apply list_elem_of_here|].
    injection Ho as <-. by apply Hname.
  - exists [], None, (example_ops ++ [Import unchecked_export "k"]).
    split; [constructor | reflexivity].
  - intros Hv. destruct (Hv "g1" 6) as (o & Ho & Hname & _); [apply list_elem_of_here|].
    injection Ho as <-. by apply Hname.
  - exists [], None, (example_ops ++ [Add "Pixel" "Google" nan "aa" 5000 5001]).
    split; [constructor | reflexivity].
  - intros Hv. destruct (Hv "gadget-aa" 6) as (o & Ho & _ & _ & x & Hx & Hpos).
    { apply list_elem_of_further, list_elem_of_further, list_elem_of_here. }
    injection Ho as <-. injection Hx as <-. discriminate Hpos.
  - exists [], None, (example_ops ++
                        [Update mac_key {| patch_name := None; patch_brand := None;
                                           patch_price := Some nan |} 4000]).
    split; [constructor | reflexivity].
  - intros Hv. destruct (Hv mac_key 0) as (o & Ho & _ & _ & x & Hx & Hpos);
      [apply list_elem_of_here|].
    injection Ho as <-. injection Hx as <-. discriminate Hpos.
Qed.

End Scenario.

(** ** More of the class: adding, deleting and what they compose to *)

Section AddDelete.
Context {R : Runtime}.
Implicit Types (w : World) (h : Heap) (g : ref) (o : Gadget).

Lemma map_get_None_keys {V} (m : JsMap V) k : map_get k m = None ↔ k ∉ map_keys m.
Proof.
  induction m as [|[k' v'] m IH].
  - split; [intros _; apply not_elem_of_nil | done].
  - change (map_keys ((k', v') :: m)) with (k' :: map_keys m).
    rewrite not_elem_of_cons. simpl. destruct (decide (k = k')) as [->|Hne].
    + split; [done | intros [? _]; done].
    + rewrite IH. tauto.
Qed.

Lemma map_delete_snoc {V} (m : JsMap V) k v :
  k ∉ map_keys m → map_delete k (m ++ [(k, v)]) = m.
Proof.
  induction m as [|[k' v'] m IH]; simpl.
  - intros _. by rewrite decide_True.
  - rewrite not_elem_of_cons. intros [Hne Hk].
    rewrite decide_False by done. by rewrite IH.
Qed.

Lemma nonempty_length (s : string) : s ≠ "" → (String.length s =? 0)%nat = false.
Proof. by destruct s. Qed.

(** [addGadget] with acceptable arguments, in full. *)
Lemma addGadget_accepted w n b p random created recorded :
  n ≠ "" → b ≠ "" → (p <? 0)%float = false →
  addGadget w n b p random created recorded =
  let o := {| id := generateId random; name := n; brand := b; price := Num p;
              addedAt := DateObj created |} in
  (Return (List.length (heap w)),
   {| heap := heap w ++ [o; o];
      this := {| gadgets := map_set (generateId random) (List.length (heap w))
                                    (gadgets (this w));
                 history := history (this w) ++
                   [{| action := ADD; gadget := S (List.length (heap w));
                       timestamp := recorded |}];
                 version := version (this w) |} |}).
Proof.
  intros Hn Hb Hp. unfold addGadget, alloc.
  rewrite (nonempty_length n Hn), (nonempty_length b Hb). simpl.
  rewrite Hp.
  erewrite recordHistory_eq by (simpl; apply lookup_alloc_new). simpl.
  rewrite length_app, <- app_assoc. simpl.
  by replace (List.length (heap w) + 1) with (S (List.length (heap w))) by lia.
Qed.

(** X1: [addGadget] with a non-empty name, a non-empty brand and a price
    that is not below zero returns a new object with exactly these values, the
    generated id and the first clock reading; the object is found under its
    id, every other key and every older object are as before, the version
    is kept, and one ADD entry is appended whose snapshot is another new
    object with the same values. *)
Theorem addGadget_spec w n b p random created recorded :
  n ≠ "" → b ≠ "" → (p <? 0)%float = false →
  ∃ g copy,
    let o := {| id := generateId random; name := n; brand := b; price := Num p;
                addedAt := DateObj created |} in
    let w' := (addGadget w n b p random created recorded).2 in
    ((addGadget w n b p random created recorded).1 = Return g ∧
     heap w !! g = None ∧ heap w' !! g = Some o ∧
     map_get (generateId random) (gadgets (this w')) = Some g ∧
     (∀ k, k ≠ generateId random →
           map_get k (gadgets (this w')) = map_get k (gadgets (this w))) ∧
     (∀ g', g' < List.length (heap w) → heap w' !! g' = heap w !! g') ∧
     history (this w') =
       history (this w) ++ [{| action := ADD; gadget := copy; timestamp := recorded |}] ∧
     copy ≠ g ∧ heap w !! copy = None ∧ heap w' !! copy = Some o ∧
     version (this w') = version (this w)).
Proof.
  intros Hn Hb Hp. exists (List.length (heap w)), (S (List.length (heap w))).
  rewrite addGadget_accepted by done. simpl. split_and!.
  - done.
  - by apply lookup_ge_None.
  - by rewrite (lookup_app_r _ _ (List.length (heap w))), Nat.sub_diag.
  - rewrite map_get_set. by rewrite decide_True.
  - intros k Hk. rewrite map_get_set. by rewrite decide_False.
  - intros g' Hg'. by rewrite lookup_app_l.
  - done.
  - lia.
  - apply lookup_ge_None. lia.
  - rewrite lookup_app_r by lia.
    by replace (S (List.length (heap w)) - List.length (heap w)) with 1 by lia.
  - done.
Qed.

(** X2: [addGadget] does not check the generated id against the map.  When
    the id is already a key of a reachable store, the call still returns: the
    keys and their order stay as they were, the new object takes the place
    of the one that was stored under the id, and that one is no longer held
    by the store. *)
Theorem addGadget_same_id_replaces w n b p random created recorded g0 :
  reachable w →
  n ≠ "" → b ≠ "" → (p <? 0)%float = false →
  map_get (generateId random) (gadgets (this w)) = Some g0 →
  let w' := (addGadget w n b p random created recorded).2 in
  (map_keys (gadgets (this w')) = map_keys (gadgets (this w)) ∧
   map_get (generateId random) (gadgets (this w')) = Some (List.length (heap w)) ∧
   g0 ≠ List.length (heap w) ∧
   (g0 ∉ map_values (gadgets (this w')))).
Proof.
  intros Hwf%reachable_wf Hn Hb Hp Hold w'. subst w'.
  rewrite addGadget_accepted by done. simpl.
  pose proof (map_get_Some_elem_of _ _ _ Hold) as Hin.
  destruct (wf_live w Hwf _ _ Hin) as (o0 & _ & Hg0 & Hid0 & _).
  pose proof (lookup_lt_Some _ _ _ Hg0) as Hlt.
  split_and!.
  - rewrite map_keys_set. rewrite decide_True; [done|]. by eapply elem_of_map_keys.
  - rewrite map_get_set. by rewrite decide_True.
  - lia.
  - intros ([k' g'] & Heq & Hin')%list_elem_of_fmap. simpl in Heq. subst g'.
    apply elem_of_map_set in Hin' as [[_ ?]|[Hne Hin']]; [lia | | apply (wf_keys w Hwf)].
    destruct (wf_live w Hwf _ _ Hin') as (o' & _ & Hg' & Hid' & _). congruence.
Qed.

(** X3: adding a gadget under an id that is not yet a key and deleting it
    again by the id it was given leaves the map exactly as it was before the
    two calls; the delete returns [true], and the history has grown by the
    ADD entry and the DELETE entry, in this order. *)
Theorem add_then_delete w n b p random created recorded now :
  n ≠ "" → b ≠ "" → (p <? 0)%float = false →
  (generateId random ∉ map_keys (gadgets (this w))) →
  let w1 := (addGadget w n b p random created recorded).2 in
  let w2 := (deleteGadget w1 (generateId random) now).2 in
  ((deleteGadget w1 (generateId random) now).1 = true ∧
   gadgets (this w2) = gadgets (this w) ∧
   (action <$> history (this w2)) = (action <$> history (this w)) ++ [ADD; DELETE] ∧
   (timestamp <$> history (this w2)) =
     (timestamp <$> history (this w)) ++ [recorded; now]).
Proof.
  intros Hn Hb Hp Hfresh w1 w2. subst w1 w2.
  rewrite addGadget_accepted by done. simpl.
  rewrite map_set_fresh by done. unfold deleteGadget. simpl.
  assert (map_get (generateId random)
            (gadgets (this w) ++ [(generateId random, List.length (heap w))])
          = Some (List.length (heap w))) as ->.
  { rewrite <- (map_set_fresh _ _ _ Hfresh), map_get_set. by rewrite decide_True. }
  simpl. rewrite map_delete_snoc by done.
  erewrite recordHistory_eq; simpl.
  2: { rewrite lookup_app_r by lia. by rewrite Nat.sub_diag. }
  split_and!; [done | done | |]; by rewrite !fmap_app, <- !app_assoc.
Qed.

(** X4: once [deleteGadget] has run for a key, the key is gone from a
    reachable store: a second [deleteGadget] returns [false] and an
    [updateGadget] returns [null], and neither changes anything. *)
Theorem deleted_key_is_gone w key now :
  reachable w →
  let w1 := (deleteGadget w key now).2 in
  (∀ later, deleteGadget w1 key later = (false, w1)) ∧
  (∀ data later, updateGadget w1 key data later = (Return None, w1)).
Proof.
  intros Hwf%reachable_wf w1.
  assert (map_get key (gadgets (this w1)) = None) as Hgone.
  { subst w1. unfold deleteGadget.
    destruct (map_get key (gadgets (this w))) as [g|] eqn:Hkey; simpl; [|done].
    destruct (wf_live w Hwf key g) as (o & _ & Hg & _); [by apply map_get_Some_elem_of|].
    rewrite (recordHistory_eq _ _ _ _ o) by done. simpl.
    apply map_get_None_keys, map_keys_delete_gone, (wf_keys w Hwf). }
  split.
  - intros later. unfold deleteGadget. by rewrite Hgone.
  - intros data later. by apply updateGadget_absent.
Qed.

End AddDelete.

(** ** Prices that [JSON] carries *)

Section SafePrices.
Context {R : Runtime}.
Implicit Types (w : World) (h : Heap) (g : ref) (o : Gadget).

Local Abbreviation safe_heap h :=
  (Forall (λ elt : Gadget, json_safe_price (price elt) = true) h).

Lemma safe_recordHistory w a g now :
  safe_heap (heap w) → safe_heap (heap (recordHistory w a g now)).
Proof.
  intros Hsafe. unfold recordHistory, spread, alloc.
  destruct (heap w !! g) as [o|] eqn:Hg; simpl; [|done].
  apply Forall_app. split; [done|]. apply Forall_singleton.
  by apply (Forall_lookup_1 _ _ _ _ Hsafe Hg).
Qed.

Lemma safe_step w op :
  wf w → finite_op op → safe_heap (heap w) → safe_heap (heap (step w op)).
Proof.
  intros Hwf Hop Hsafe.
  destruct op as [n b p random created recorded | key data now | key now | e secret];
    simpl in *; [| | |done].
  - unfold addGadget, alloc. destruct (_ || _); simpl; [done|].
    apply safe_recordHistory. simpl. apply Forall_app. split; [done|].
    by apply Forall_singleton.
  - destruct (map_get key (gadgets (this w))) as [g|] eqn:Hkey.
    2: { by rewrite updateGadget_absent. }
    destruct (wf_live w Hwf key g) as (o & _ & Hg & _); [by apply map_get_Some_elem_of|].
    pose proof (Forall_lookup_1 _ _ _ _ Hsafe Hg) as Ho.
    assert (json_safe_price (price (patched data o)) = true) as Hpatched.
    { unfold patched. simpl. destruct (patch_price data) as [p|]; simpl; [|done].
      by apply Hop. }
    destruct (patch_price data) as [p|] eqn:Hprice;
      [destruct (p <? 0)%float eqn:Hneg|].
    + erewrite updateGadget_rejected by done. simpl. by apply Forall_insert.
    + erewrite updateGadget_accepted
        by (done || (intros p0 Hp0; rewrite Hprice in Hp0; by simplify_eq)). simpl.
      apply Forall_app. split; [by apply Forall_insert | by repeat constructor].
    + erewrite updateGadget_accepted
        by (done || (intros p0 Hp0; rewrite Hprice in Hp0; by simplify_eq)). simpl.
      apply Forall_app. split; [by apply Forall_insert | by repeat constructor].
  - unfold deleteGadget. destruct (map_get key _) as [g|]; simpl; [|done].
    by apply safe_recordHistory.
Qed.

Lemma safe_run ops w :
  wf w → Forall finite_op ops → safe_heap (heap w) → safe_heap (heap (run w ops)).
Proof.
  intros Hwf Hops. revert w Hwf.
  induction Hops as [|op ops Hop Hops IH]; intros w Hwf Hsafe; simpl; [done|].
  apply IH; [by apply wf_step | by apply safe_step].
Qed.

(** X6: add, update and delete calls whose prices are finite numbers keep
    NaN and the infinities out of the store: when no object of the heap the
    tracker was constructed in has such a price, no gadget of the map and no
    snapshot of the history has one after the run. *)
Theorem finite_prices_json_safe h initialGadgets ops :
  well_typed h initialGadgets →
  Forall (λ o, json_safe_price (price o) = true) h →
  Forall finite_op ops →
  json_safe (run (initial h initialGadgets) ops) = true.
Proof.
  intros Hty Hh Hops.
  pose proof (safe_run ops (initial h initialGadgets) (wf_initial h _ Hty) Hops Hh)
    as Hsafe.
  unfold json_safe. apply forallb_forall. intros g _.
  destruct (heap _ !! g) as [o|] eqn:Hg; simpl; [|done].
  by apply (Forall_lookup_1 _ _ _ _ Hsafe Hg).
Qed.

End SafePrices.

(** ** [totalValue] and the calls that change it *)

Section Totals.
Context {R : Runtime}.
Implicit Types (w : World) (h : Heap) (g : ref) (o : Gadget).

(** The step of the fold of line 97. *)
Local Abbreviation add_price h :=
  (λ (sum : float) (elt : ref),
     match h !! elt with
     | Some o => (sum + toNumber (price o))%float
     | None => sum
     end).

Lemma total_Forall2 h h' (l l' : list ref) a :
  Forall2 (λ g g', price <$> h !! g = price <$> h' !! g') l l' →
  foldl (add_price h) a l = foldl (add_price h') a l'.
Proof.
  intros Hl. revert a. induction Hl as [|g g' l l' Hg Hl IH]; intros a; simpl; [done|].
  destruct (h !! g) as [o|], (h' !! g') as [o'|]; simpl in Hg; try done.
  injection Hg as ->. apply IH.
Qed.

Lemma total_ext h h' (l : list ref) a :
  (∀ g, g ∈ l → price <$> h !! g = price <$> h' !! g) →
  foldl (add_price h) a l = foldl (add_price h') a l.
Proof.
  intros Hext. apply total_Forall2, Forall_Forall2_diag, Forall_forall. exact Hext.
Qed.

Lemma total_nonneg h (l : list ref) a :
  (0 <=? a)%float = true →
  (∀ g, g ∈ l → ∃ o, h !! g = Some o ∧ valid_gadget o) →
  (0 <=? foldl (add_price h) a l)%float = true.
Proof.
  revert a. induction l as [|g l IH]; intros a Ha Hl; simpl; [done|].
  destruct (Hl g) as (o & -> & _ & _ & x & Hx & Hpos); [apply list_elem_of_here|].
  apply IH.
  - rewrite Hx. simpl. by apply add_nonneg.
  - intros g' Hg'. apply Hl. by apply list_elem_of_further.
Qed.

Lemma map_values_cons {V} (m : JsMap V) k v :
  map_values ((k, v) :: m) = v :: map_values m.
Proof. done. Qed.

Lemma map_set_cons {V} (m : JsMap V) k v k' v' :
  map_set k v ((k', v') :: m) =
  if decide (k = k') then (k, v) :: m else (k', v') :: map_set k v m.
Proof. done. Qed.

Lemma map_get_cons {V} (m : JsMap V) k k' v' :
  map_get k ((k', v') :: m) = if decide (k = k') then Some v' else map_get k m.
Proof. done. Qed.

Lemma map_delete_cons {V} (m : JsMap V) k k' v' :
  map_delete k ((k', v') :: m) =
  if decide (k = k') then m else (k', v') :: map_delete k m.
Proof. done. Qed.

Lemma wf_values_NoDup w : wf w → NoDup (map_values (gadgets (this w))).
Proof.
  intros Hwf. apply NoDup_fmap_2_strong.
  - intros [k1 g1] [k2 g2] H1 H2 Heq. simpl in Heq. subst g2.
    destruct (wf_live w Hwf _ _ H1) as (o1 & _ & Hg1 & Hid1 & _).
    destruct (wf_live w Hwf _ _ H2) as (o2 & _ & Hg2 & Hid2 & _).
    f_equal. congruence.
  - eapply NoDup_fmap_1, (wf_keys w Hwf).
Qed.

Lemma wf_values_lt w g :
  wf w → g ∈ map_values (gadgets (this w)) → g < List.length (heap w).
Proof.
  intros Hwf ([k g'] & -> & Hin)%list_elem_of_fmap. simpl.
  destruct (wf_live w Hwf _ _ Hin) as (o & _ & Hg & _). by eapply lookup_lt_Some.
Qed.

(** X5: in a reachable store [totalValue] after an accepted [addGadget]
    whose generated id is a new key is the total before plus the new price,
    the sum being the one of doubles: the new gadget is the last one the
    fold of line 97 comes to. *)
Theorem totalValue_addGadget w n b p random created recorded :
  reachable w →
  n ≠ "" → b ≠ "" → (p <? 0)%float = false →
  map_get (generateId random) (gadgets (this w)) = None →
  totalValue (addGadget w n b p random created recorded).2 = (totalValue w + p)%float.
Proof.
  intros Hwf%reachable_wf Hn Hb Hp Hfresh%map_get_None_keys.
  rewrite addGadget_accepted by done. unfold totalValue. simpl.
  rewrite map_set_fresh by done. unfold map_values. rewrite fmap_app, foldl_app. simpl.
  rewrite (lookup_app_r _ _ (List.length (heap w))), Nat.sub_diag by lia. simpl.
  f_equal. apply total_ext.
  intros g Hg%(wf_values_lt w g Hwf). by rewrite lookup_app_l.
Qed.

(** X7: in a reachable store an [updateGadget] that provides no price, or
    that is rejected for its negative price, leaves [totalValue] as it
    was. *)
Theorem totalValue_updateGadget w key data now :
  reachable w →
  patch_price data = None ∨ (∃ p, patch_price data = Some p ∧ (p <? 0)%float = true) →
  totalValue (updateGadget w key data now).2 = totalValue w.
Proof.
  intros Hwf%reachable_wf Hprice.
  destruct (map_get key (gadgets (this w))) as [g|] eqn:Hkey.
  2: { by rewrite updateGadget_absent. }
  destruct (wf_live w Hwf key g) as (o & _ & Hg & _); [by apply map_get_Some_elem_of|].
  pose proof (lookup_lt_Some _ _ _ Hg) as Hlt.
  assert (∀ o' new, price o' = price o →
    foldl (add_price (<[g := o']> (heap w) ++ new)) 0%float
          (map_values (gadgets (this w))) = totalValue w) as Hsame.
  { intros o' new Ho'. apply total_ext. intros g' Hg'%(wf_values_lt w g' Hwf).
    rewrite lookup_app_l by (by rewrite length_insert).
    destruct (decide (g' = g)) as [->|Hne].
    - rewrite (lookup_insert_here _ _ o) by done. rewrite Hg. simpl. by rewrite Ho'.
    - by rewrite list_lookup_insert_ne. }
  destruct Hprice as [Hnone | (p & Hsome & Hneg)].
  - rewrite (updateGadget_accepted w key data now g o); try done.
    + unfold totalValue at 1. simpl. apply Hsame. unfold patched. simpl.
      by rewrite Hnone.
    + intros p Hp. by rewrite Hnone in Hp.
  - rewrite (updateGadget_rejected w key data now g o p) by done.
    unfold totalValue at 1. simpl.
    rewrite <- (app_nil_r (<[g := _]> (heap w))). by apply Hsame.
Qed.

(** X8: when every gadget of the store has a price that is not negative,
    [totalValue] is not negative. *)
Theorem totalValue_nonneg w : all_valid w → (0 <=? totalValue w)%float = true.
Proof.
  intros Hv. unfold totalValue. apply total_nonneg; [done|].
  intros g ([k g'] & -> & Hin)%list_elem_of_fmap. simpl.
  destruct (Hv k g' Hin) as (o & Ho & Hvalid). by exists o.
Qed.

End Totals.

(** ** The history and what never changes *)

Section HistoryFacts.
Context {R : Runtime}.
Implicit Types (w : World) (h : Heap) (g : ref) (o : Gadget).

(** X9: [getHistory] returns the recorded entries, each exactly once,
    ordered by timestamp from the latest to the earliest; entries with one
    and the same timestamp follow each other in the order in which they
    were recorded. *)
Theorem getHistory_sorted_desc w :
  getHistory w ≡ₚ history (this w) ∧
  StronglySorted (desc timestamp) (getHistory w) ∧
  ∀ t, filter (λ e, timestamp e = t) (getHistory w) =
       filter (λ e, timestamp e = t) (history (this w)).
Proof.
  unfold getHistory. split_and!.
  - apply Array_sort_perm.
  - by apply Array_sort_sorted.
  - intros t. by apply Array_sort_stable.
Qed.

Lemma sort_insert_last {A} (key : A → Z) x l :
  Forall (λ y, (key x < key y)%Z) l →
  sort_insert (λ a b, (key b - key a)%Z) x l = l ++ [x].
Proof.
  induction 1 as [|y l Hy Hl IH]; simpl; [done|].
  destruct (Z.ltb_spec 0 (key y - key x)) as [_|?]; [|lia]. by rewrite IH.
Qed.

Lemma Array_sort_ascending {A} (key : A → Z) l :
  StronglySorted (λ a b, (key a < key b)%Z) l →
  Array_sort (λ a b, (key b - key a)%Z) l = reverse l.
Proof.
  induction 1 as [|x l Hs IH Hx]; simpl; [done|].
  rewrite IH, reverse_cons. apply sort_insert_last.
  by apply Forall_reverse.
Qed.

(** X10: when every entry was recorded at a later clock reading than the
    entries before it, [getHistory] is the history in reverse: the entry
    recorded last comes first. *)
Theorem getHistory_reverse w :
  StronglySorted (λ a b, (timestamp a < timestamp b)%Z) (history (this w)) →
  getHistory w = reverse (history (this w)).
Proof. apply Array_sort_ascending. Qed.

Lemma keeps_refl h : keeps h h.
Proof. intros g o Hg. eauto. Qed.

Lemma keeps_trans h1 h2 h3 : keeps h1 h2 → keeps h2 h3 → keeps h1 h3.
Proof.
  intros H12 H23 g o Hg.
  destruct (H12 g o Hg) as (o2 & Hg2 & Hi2 & Ha2).
  destruct (H23 g o2 Hg2) as (o3 & Hg3 & Hi3 & Ha3).
  exists o3. split_and!; [done | congruence | congruence].
Qed.

Lemma keeps_assign h f g :
  (∀ o, id (f o) = id o ∧ addedAt (f o) = addedAt o) → keeps h (assign f g h).
Proof.
  intros Hf g' o Hg'. rewrite lookup_assign, Hg'.
  destruct (decide (g = g')); simpl; [|eauto].
  exists (f o). destruct (Hf o). done.
Qed.

Lemma keeps_spread h g : keeps h (spread h g).1.
Proof.
  unfold spread, alloc. destruct (h !! g); simpl; [apply keeps_app | apply keeps_refl].
Qed.

Lemma keeps_recordHistory w a g now : keeps (heap w) (heap (recordHistory w a g now)).
Proof.
  destruct (recordHistory_grows w a g now) as (new & -> & _). apply keeps_app.
Qed.

Lemma import_gadgets_grows xs w :
  ∃ new, heap (import_gadgets w xs).2 = heap w ++ new ∧
         history (this (import_gadgets w xs).2) = history (this w) ∧
         version (this (import_gadgets w xs).2) = version (this w).
Proof.
  revert w. induction xs as [|[x|] xs IH]; intros w.
  - exists []. by rewrite app_nil_r.
  - rewrite import_gadgets_cons.
    destruct (IH {| heap := heap w ++ [imported_gadget x];
                    this := {| gadgets := map_set (w_id x) (List.length (heap w))
                                                  (gadgets (this w));
                               history := history (this w);
                               version := version (this w) |} |})
      as (new & -> & -> & ->).
    simpl. exists (imported_gadget x :: new). by rewrite <- app_assoc.
  - exists []. by rewrite app_nil_r.
Qed.

Lemma keeps_step w op : keeps (heap w) (heap (step w op)).
Proof.
  destruct op as [n b p random created recorded | key data now | key now | e secret];
    simpl.
  - unfold addGadget, alloc. destruct (_ || _); simpl; [apply keeps_refl|].
    eapply keeps_trans; [|apply keeps_recordHistory]. apply keeps_app.
  - unfold updateGadget. destruct (map_get key _) as [g|]; [|apply keeps_refl].
    set (h1 := match patch_name data with Some n => _ | None => _ end).
    set (h2 := match patch_brand data with Some b => _ | None => _ end).
    assert (keeps (heap w) h2) as H2.
    { apply (keeps_trans _ h1).
      - subst h1. destruct (patch_name data); [by apply keeps_assign | apply keeps_refl].
      - subst h2. destruct (patch_brand data); [by apply keeps_assign | apply keeps_refl]. }
    assert (∀ h3, keeps (heap w) h3 →
      keeps (heap w) (heap (let '(h4, copy) := spread h3 g in
        (Return (Some g),
         recordHistory {| heap := h4; this := this w |} UPDATE copy now)).2)) as Hfinish.
    { intros h3 H3. pose proof (keeps_spread h3 g) as H4.
      destruct (spread h3 g) as [h4 copy]. simpl in *.
      eapply keeps_trans; [exact H3|]. eapply keeps_trans; [exact H4|].
      apply (keeps_recordHistory {| heap := h4; this := this w |}). }
    destruct (patch_price data) as [p|]; [destruct (p <? 0)%float|]; simpl.
    + done.
    + apply Hfinish. eapply keeps_trans; [exact H2|]. by apply keeps_assign.
    + by apply Hfinish.
  - unfold deleteGadget. destruct (map_get key _) as [g|]; simpl; [|apply keeps_refl].
    apply (keeps_recordHistory {| heap := heap w; this := _ |}).
  - unfold importEncrypted.
    destruct (aes_decrypt _ _ _) as [decrypted|]; [|apply keeps_refl].
    destruct (JSON_parse decrypted) as [[|[xs|] [hs|] v]|]; try apply keeps_refl.
    set (cleared := {| heap := heap w; this := _ |}).
    destruct (import_gadgets_grows xs cleared) as (new & Hnew & _).
    destruct (import_gadgets cleared xs) as [[[]|x] w1]; simpl in *;
      [|rewrite Hnew; apply keeps_app].
    destruct (import_history_heap hs (heap w1)) as (new' & Hnew' & _).
    destruct (import_history (heap w1) hs) as [[es|x] h2]; simpl in *; subst h2;
      rewrite Hnew, <- app_assoc; apply keeps_app.
Qed.

(** X11: no call changes the id or the [addedAt] of an object: whatever
    calls follow, returning or throwing, an object that exists keeps
    existing at its address with the id and the [addedAt] it has. *)
Theorem id_and_addedAt_never_change w ops g o :
  heap w !! g = Some o →
  ∃ o', heap (run w ops) !! g = Some o' ∧ id o' = id o ∧ addedAt o' = addedAt o.
Proof.
  revert w o. induction ops as [|op ops IH]; intros w o Hg; simpl; [eauto|].
  destruct (keeps_step w op g o Hg) as (o1 & Hg1 & Hid1 & Hat1).
  destruct (IH _ _ Hg1) as (o' & Hg' & Hid' & Hat').
  exists o'. split_and!; congruence.
Qed.

Lemma step_keeps_history w op :
  wf w → no_import op →
  history (this w) `prefix_of` history (this (step w op)) ∧
  (∀ e, e ∈ history (this w) → heap (step w op) !! gadget e = heap w !! gadget e) ∧
  version (this (step w op)) = version (this w).
Proof.
  intros Hwf Hop.
  assert (∀ e new, e ∈ history (this w) →
            (heap w ++ new) !! gadget e = heap w !! gadget e) as Hgrow.
  { intros e new He. destruct (wf_snapshots w Hwf e He) as [o Ho].
    by rewrite (lookup_app_l_Some _ _ _ _ Ho). }
  destruct op as [n b p random created recorded | key data now | key now | e secret];
    simpl in *; [| | |done].
  - unfold addGadget, alloc. destruct (_ || _); simpl; [done|].
    erewrite recordHistory_eq by (simpl; apply lookup_alloc_new). simpl.
    split_and!; [by apply prefix_app_r | | done].
    intros e He. rewrite <- app_assoc. auto.
  - destruct (map_get key (gadgets (this w))) as [g|] eqn:Hkey.
    2: { by rewrite updateGadget_absent. }
    pose proof (map_get_Some_elem_of _ _ _ Hkey) as Hin.
    destruct (wf_live w Hwf key g Hin) as (o & ms & Hg & _).
    assert (∀ e o' new, e ∈ history (this w) →
              (<[g := o']> (heap w) ++ new) !! gadget e = heap w !! gadget e) as Hsnap.
    { intros e o' new He.
      destruct (wf_snapshots w Hwf e He) as [o0 Ho0%lookup_lt_Some].
      rewrite lookup_app_l by (by rewrite length_insert).
      apply list_lookup_insert_ne. intros Heq. by apply (wf_apart w Hwf key g e). }
    destruct (patch_price data) as [p|] eqn:Hprice;
      [destruct (p <? 0)%float eqn:Hneg|].
    + erewrite updateGadget_rejected by done. simpl. split_and!; [done | | done].
      intros e He. rewrite <- (app_nil_r (<[g := _]> (heap w))). auto.
    + erewrite updateGadget_accepted
        by (done || (intros p0 Hp0; rewrite Hprice in Hp0; by simplify_eq)). simpl.
      split_and!; [by apply prefix_app_r | auto | done].
    + erewrite updateGadget_accepted
        by (done || (intros p0 Hp0; rewrite Hprice in Hp0; by simplify_eq)). simpl.
      split_and!; [by apply prefix_app_r | auto | done].
  - unfold deleteGadget.
    destruct (map_get key (gadgets (this w))) as [g|] eqn:Hkey; simpl; [|done].
    destruct (wf_live w Hwf key g) as (o & _ & Hg & _);
      [by apply map_get_Some_elem_of|].
    rewrite (recordHistory_eq _ _ _ _ o) by done. simpl.
    split_and!; [by apply prefix_app_r | auto | done].
Qed.

(** X12: the history is append-only under [addGadget], [updateGadget] and
    [deleteGadget]: after any run of such calls on a reachable store, returning
    or throwing, the entries recorded before are still the first entries,
    the objects of their snapshots are as they were, and the version is the
    same. *)
Theorem history_append_only w ops :
  reachable w →
  Forall no_import ops →
  history (this w) `prefix_of` history (this (run w ops)) ∧
  (∀ e, e ∈ history (this w) → heap (run w ops) !! gadget e = heap w !! gadget e) ∧
  version (this (run w ops)) = version (this w).
Proof.
  intros Hwf%reachable_wf Hops. revert w Hwf.
  induction Hops as [|op ops Hop Hops IH]; intros w Hwf; simpl; [done|].
  destruct (step_keeps_history w op Hwf Hop) as (Hpre & Hsnap & Hver).
  destruct (IH (step w op) (wf_step w op Hwf)) as (Hpre' & Hsnap' & Hver').
  split_and!.
  - by etrans.
  - intros e He. rewrite <- (Hsnap e He). apply Hsnap'.
    by eapply elem_of_prefix.
  - congruence.
Qed.

(** X13: in every reachable store the keys of the map are pairwise distinct,
    no object is held under two keys, and every object is held under its
    own id and has a [Date] as its [addedAt]. *)
Theorem stored_under_own_id w :
  reachable w →
  NoDup (map_keys (gadgets (this w))) ∧
  NoDup (map_values (gadgets (this w))) ∧
  ∀ k g, (k, g) ∈ gadgets (this w) →
         ∃ o ms, heap w !! g = Some o ∧ id o = k ∧ addedAt o = DateObj ms.
Proof.
  intros Hwf%reachable_wf. split_and!.
  - apply (wf_keys w Hwf).
  - by apply wf_values_NoDup.
  - apply (wf_live w Hwf).
Qed.

Lemma version_step w op :
  version (this w) ≠ 0%Z → version (this (step w op)) ≠ 0%Z.
Proof.
  intros Hv.
  destruct op as [n b p random created recorded | key data now | key now | e secret];
    simpl.
  - unfold addGadget, alloc. destruct (_ || _); simpl; [done|].
    unfold recordHistory. by destruct (spread _ _).
  - unfold updateGadget. destruct (map_get key _) as [g|]; [|done].
    destruct (patch_price data) as [p|]; [destruct (p <? 0)%float|]; simpl; try done;
      destruct (spread _ g) as [h4 copy]; unfold recordHistory; simpl;
      by destruct (spread h4 copy).
  - unfold deleteGadget. destruct (map_get key _) as [g|]; simpl; [|done].
    unfold recordHistory. by destruct (spread _ _).
  - unfold importEncrypted.
    destruct (aes_decrypt _ _ _) as [decrypted|]; [|done].
    destruct (JSON_parse decrypted) as [[|[xs|] [hs|] v]|]; try done.
    set (cleared := {| heap := heap w; this := _ |}).
    destruct (import_gadgets_grows xs cleared) as (new & _ & _ & Hver).
    destruct (import_gadgets cleared xs) as [[[]|x] w1]; simpl in *;
      [|by rewrite Hver].
    destruct (import_history (heap w1) hs) as [[es|x] h2]; simpl;
      [|by rewrite Hver].
    destruct v as [v|]; [|done]. by destruct (Z.eqb_spec v 0).
Qed.

Lemma version_run ops w :
  version (this w) ≠ 0%Z → version (this (run w ops)) ≠ 0%Z.
Proof.
  revert w. induction ops as [|op ops IH]; intros w Hv; simpl; [done|].
  by apply IH, version_step.
Qed.

(** X14: the version of a reachable store is never 0: it is 1 from the
    constructor on, and an import sets it to the version of the payload or,
    when that is absent or 0, to 1. *)
Theorem version_never_zero w : reachable w → version (this w) ≠ 0%Z.
Proof. intros (h & gs & ops & _ & ->). by apply version_run. Qed.

End HistoryFacts.

(** ** More on import and export *)

Section ImportFacts.
Context {R : Runtime} {L : RuntimeLaws R}.
Implicit Types (w : World) (h : Heap) (g : ref) (o : Gadget).

(** X15: importing an export overwrites whatever the target store held.
    For every reachable exporting store and every target store, the import
    under the same secret returns, and afterwards the target holds the ids
    of the exporting store in the same order, under each id the gadget of
    the exporting store as [JSON] returns it (the same id, name, brand and
    [addedAt], and the price as [JSON] carries it: NaN and the infinities
    come back as [null], negative zero as zero, every other price as it
    is), a history equal to its history entry by entry (action, timestamp,
    and the snapshot as JSON writes it) and its version. *)
Theorem import_overwrites_target w secret iv w0 :
  reachable w →
  let w2 := (importEncrypted w0 (exportEncrypted w secret iv) secret).2 in
  ((importEncrypted w0 (exportEncrypted w secret iv) secret).1 = Return () ∧
   map_keys (gadgets (this w2)) = map_keys (gadgets (this w)) ∧
   (λ g, heap w2 !! g) <$> map_values (gadgets (this w2)) =
     (λ g, json_trip <$> heap w !! g) <$> map_values (gadgets (this w)) ∧
   entry_view (heap w2) <$> history (this w2) =
     entry_view (heap w) <$> history (this w) ∧
   version (this w2) = version (this w)).
Proof.
  intros Hreach w2.
  assert (version (this w) ≠ 0%Z) as Hver.
  { destruct Hreach as (h & gs & ops & _ & ->). by apply version_run. }
  apply reachable_wf in Hreach as Hwf.
  destruct (round_trip_gadgets w secret iv w0 Hwf) as [Hkeys Hobjs].
  pose proof (round_trip_history w secret iv w0 Hwf) as Hhistory.
  fold w2 in Hkeys, Hobjs, Hhistory.
  split_and!; try done; subst w2;
    destruct (round_trip_import w secret iv w0 Hwf) as (objs & _ & ->); simpl.
  - done.
  - by destruct (Z.eqb_spec (version (this w)) 0).
Qed.

Lemma sort_insert_Forall2 {A B} (P : A → B → Prop) cmp1 cmp2 x y l1 l2 :
  (∀ a b a' b', P a b → P a' b' → cmp1 a a' = cmp2 b b') →
  P x y → Forall2 P l1 l2 →
  Forall2 P (sort_insert cmp1 x l1) (sort_insert cmp2 y l2).
Proof.
  intros Hcmp Hxy. induction 1 as [|a b l1 l2 Hab Hl IH]; simpl.
  - by repeat constructor.
  - rewrite (Hcmp x y a b Hxy Hab). destruct (0 <? cmp2 y b)%Z.
    + by constructor.
    + by repeat constructor.
Qed.

Lemma Array_sort_Forall2 {A B} (P : A → B → Prop) cmp1 cmp2 l1 l2 :
  (∀ a b a' b', P a b → P a' b' → cmp1 a a' = cmp2 b b') →
  Forall2 P l1 l2 →
  Forall2 P (Array_sort cmp1 l1) (Array_sort cmp2 l2).
Proof.
  intros Hcmp. induction 1 as [|a b l1 l2 Hab Hl IH]; simpl; [constructor|].
  by apply sort_insert_Forall2.
Qed.

Lemma listGadgets_typed w :
  Forall (λ g, is_Some (getTime (heap w) g)) (map_values (gadgets (this w))) →
  listGadgets w =
  Return (Array_sort (byAddedAtDesc (heap w)) (map_values (gadgets (this w)))).
Proof.
  intros Hall. unfold listGadgets. replace (forallb _ _) with true; [done|].
  symmetry. apply forallb_forall. intros g Hin%list_elem_of_In.
  apply bool_decide_eq_true. rewrite Forall_forall in Hall. auto.
Qed.

(** X16: listing commutes with the round trip.  For a reachable exporting
    store and any target store, [listGadgets] of the target after the import
    and [listGadgets] of the exporting store both return, and position by
    position the target lists the gadget of the exporting store as [JSON]
    returns it: the same id, name, brand and [addedAt], and the price as
    [JSON] carries it. *)
Theorem round_trip_listGadgets w secret iv w0 :
  reachable w →
  let w2 := (importEncrypted w0 (exportEncrypted w secret iv) secret).2 in
  ∃ l l2,
    listGadgets w = Return l ∧ listGadgets w2 = Return l2 ∧
    (λ g, heap w2 !! g) <$> l2 = (λ g, json_trip <$> heap w !! g) <$> l.
Proof.
  intros Hwf%reachable_wf w2.
  destruct (listGadgets_wf w Hwf) as [Hl Hall].
  destruct (round_trip_gadgets w secret iv w0 Hwf) as [_ Hsame].
  fold w2 in Hsame.
  apply list_eq_Forall2 in Hsame. rewrite Forall2_fmap in Hsame.
  assert (∀ a b, heap w2 !! a = json_trip <$> heap w !! b →
                 getTime (heap w2) a = getTime (heap w) b) as Htime.
  { intros a b Hab. unfold getTime. rewrite Hab.
    by destruct (heap w !! b) as [[i n b0 p []]|]. }
  assert (Forall (λ g, is_Some (getTime (heap w2) g)) (map_values (gadgets (this w2))))
    as Hall2.
  { eapply Forall2_Forall_l; [exact Hsame|].
    eapply Forall_impl; [exact Hall|]. simpl.
    intros b Hb a Hab. by rewrite (Htime a b Hab). }
  exists (Array_sort (byAddedAtDesc (heap w)) (map_values (gadgets (this w)))),
         (Array_sort (byAddedAtDesc (heap w2)) (map_values (gadgets (this w2)))).
  split_and!; [done | by apply listGadgets_typed |].
  apply list_eq_Forall2. rewrite Forall2_fmap.
  apply Array_sort_Forall2; [|done].
  intros a b a' b' Hab Hab'. unfold byAddedAtDesc.
  by rewrite (Htime a b Hab), (Htime a' b' Hab').
Qed.

(** X17: a payload whose gadgets are all objects with pairwise distinct ids
    and whose history starts with [null] makes the import throw a TypeError
    when the map has already been replaced: afterwards the keys of the map
    are the ids of the payload, while history and version are those from
    before the call. *)
Theorem importEncrypted_null_entry_half_done w e secret decrypted
    (xs : list (WireGadget IsoText)) hs v :
  aes_decrypt (createKey secret) (bufferFromHex (enc_iv e)) (enc_data e) = Some decrypted →
  JSON_parse decrypted = Some (DocObject (Some (Some <$> xs)) (Some (None :: hs)) v) →
  NoDup (w_id <$> xs) →
  let w' := (importEncrypted w e secret).2 in
  ((importEncrypted w e secret).1 = Throw TypeError ∧
   map_keys (gadgets (this w')) = w_id <$> xs ∧
   history (this w') = history (this w) ∧
   version (this w') = version (this w)).
Proof.
  intros Hdec Hparse Hnd w'. subst w'. unfold importEncrypted.
  rewrite Hdec, Hparse. rewrite import_gadgets_fresh by done. simpl.
  split_and!; try done.
  unfold map_keys. by rewrite fst_zip by (rewrite length_seq, length_fmap; lia).
Qed.

End ImportFacts.

(** ** Searching and listing *)

Section Queries.
Context {R : Runtime}.
Implicit Types (w : World) (h : Heap) (g : ref) (o : Gadget).

Lemma prefix_spec q s : String.prefix q s = true ↔ ∃ b, s = q +:+ b.
Proof.
  revert s. induction q as [|c q IH]; intros s.
  - split; [intros _; by exists s | intros _; by destruct s].
  - destruct s as [|d s]; simpl.
    + split; [done | intros (b & [=])].
    + destruct (Ascii.ascii_dec c d) as [->|Hne].
      * rewrite IH. split; intros (b & Hb); exists b; [by rewrite Hb | by injection Hb].
      * split; [done | intros (b & [= ? _]); congruence].
Qed.

Lemma includes_nil q : includes "" q = String.prefix q "".
Proof. simpl. apply orb_false_r. Qed.

Lemma includes_cons c s q :
  includes (String c s) q = String.prefix q (String c s) || includes s q.
Proof. done. Qed.

Lemma includes_spec s q : includes s q = true ↔ occurs q s.
Proof.
  unfold occurs. induction s as [|c s IH]; [rewrite includes_nil | rewrite includes_cons].
  - rewrite prefix_spec. split.
    + intros (b & Hb). by exists "", b.
    + intros ([|c a] & b & Hab); [by exists b | done].
  - rewrite orb_true_iff, prefix_spec, IH. split.
    + intros [(b & Hb) | (a & b & Hab)].
      * by exists "", b.
      * exists (String c a), b. simpl. by rewrite Hab.
    + intros ([|d a] & b & Hab).
      * left. by exists b.
      * right. exists a, b. simpl in Hab. by injection Hab.
Qed.

Lemma includes_empty s : includes s "" = true.
Proof. apply includes_spec. by exists "", s. Qed.

Lemma filter_sublist {A} (f : A → bool) l : List.filter f l `sublist_of` l.
Proof.
  induction l as [|x l IH]; simpl; [done|].
  destruct (f x); [by apply sublist_skip | by apply sublist_cons].
Qed.

(** X18: [findGadgets] returns, in the order of the map and without
    changing that order, exactly the stored gadgets in whose lower-cased
    name or lower-cased brand the lower-cased query occurs. *)
Theorem findGadgets_spec toLowerCase w query :
  findGadgets toLowerCase w query `sublist_of` map_values (gadgets (this w)) ∧
  ∀ g, g ∈ findGadgets toLowerCase w query ↔
       g ∈ map_values (gadgets (this w)) ∧
       ∃ o, heap w !! g = Some o ∧
            (occurs (toLowerCase query) (toLowerCase (name o)) ∨
             occurs (toLowerCase query) (toLowerCase (brand o))).
Proof.
  split; [apply filter_sublist|].
  intros g. unfold findGadgets. rewrite list_elem_of_In, filter_In, <- list_elem_of_In.
  apply and_iff_compat_l. destruct (heap w !! g) as [o|].
  - rewrite orb_true_iff, !includes_spec. split; [by exists o|].
    by intros (o' & [= <-] & Hocc).
  - split; [done | by intros (o' & [=] & _)].
Qed.

(** X19: with the empty query, which lower-cases to itself, [findGadgets]
    of a reachable store returns every stored gadget, in the order of the
    map. *)
Theorem findGadgets_empty_query toLowerCase w :
  toLowerCase "" = "" →
  reachable w →
  findGadgets toLowerCase w "" = map_values (gadgets (this w)).
Proof.
  intros Hlow Hwf%reachable_wf. unfold findGadgets. rewrite Hlow.
  apply forallb_filter_id, forallb_forall. intros g Hin%list_elem_of_In.
  apply list_elem_of_fmap in Hin as ([k g'] & -> & Hin). simpl.
  destruct (wf_live w Hwf k g' Hin) as (o & _ & -> & _).
  by rewrite includes_empty.
Qed.

Lemma sorted_head `{EqDecision A} (key : A → Z) x l :
  StronglySorted (desc key) l → x ∈ l →
  (∀ y, y ∈ l → y ≠ x → (key y < key x)%Z) →
  ∃ l', l = x :: l'.
Proof.
  intros Hs Hin Hmax. destruct Hs as [|y l Hs Hy]; [by apply elem_of_nil in Hin|].
  exists l. f_equal. destruct (decide (y = x)) as [|Hne]; [done|].
  specialize (Hmax y (list_elem_of_here _ _) Hne).
  apply elem_of_cons in Hin as [->|Hin]; [done|].
  rewrite Forall_forall in Hy. specialize (Hy x Hin). unfold desc in Hy. lia.
Qed.

(** X20: when [addGadget] accepts its arguments on a reachable store and
    its clock reading is later than the [addedAt] of every stored gadget,
    [listGadgets] afterwards returns with the new gadget in first place. *)
Theorem listGadgets_newest_first w n b p random created recorded :
  reachable w →
  n ≠ "" → b ≠ "" → (p <? 0)%float = false →
  (∀ g, g ∈ map_values (gadgets (this w)) → (addedAt_ms (heap w) g < created)%Z) →
  ∃ g l,
    (addGadget w n b p random created recorded).1 = Return g ∧
    listGadgets (addGadget w n b p random created recorded).2 = Return (g :: l).
Proof.
  intros Hwf%reachable_wf Hn Hb Hp Hlater.
  pose proof (wf_addGadget w n b p random created recorded Hwf) as Hwf'.
  destruct (listGadgets_wf _ Hwf') as [Hl _]. revert Hwf' Hl.
  rewrite addGadget_accepted by done. simpl. intros Hwf' Hl.
  set (h' := heap w ++ _) in *. set (m' := map_set _ _ _) in *.
  assert (addedAt_ms h' (List.length (heap w)) = created) as Hnew.
  { unfold addedAt_ms, getTime. subst h'.
    by rewrite (lookup_app_r _ _ (List.length (heap w))), Nat.sub_diag. }
  assert (∀ g, g ∈ map_values m' → g ≠ List.length (heap w) →
               (addedAt_ms h' g < created)%Z) as Hold.
  { intros g ([k g'] & -> & Hin)%list_elem_of_fmap Hne. simpl in *.
    apply elem_of_map_set in Hin as [[_ ?]|[_ Hin]]; [done | | apply (wf_keys w Hwf)].
    destruct (wf_live w Hwf _ _ Hin) as (o & _ & Hg & _).
    unfold addedAt_ms, getTime. subst h'. rewrite (lookup_app_l_Some _ _ _ _ Hg).
    specialize (Hlater g' (elem_of_map_values _ _ _ Hin)).
    unfold addedAt_ms, getTime in Hlater. by rewrite Hg in Hlater. }
  destruct (sorted_head (addedAt_ms h') (List.length (heap w))
              (Array_sort (byAddedAtDesc h') (map_values m'))) as [l Heq].
  - by apply Array_sort_sorted.
  - rewrite Array_sort_perm. apply (elem_of_map_values _ (generateId random)).
    apply map_get_Some_elem_of. subst m'. rewrite map_get_set. by rewrite decide_True.
  - intros g Hg Hne. rewrite Array_sort_perm in Hg. rewrite Hnew. by apply Hold.
  - exists (List.length (heap w)), l. split; [done|]. by rewrite Hl, Heq.
Qed.

End Queries.

(** ** Queries after a round trip *)

Section RoundTripQueries.
Context {R : Runtime} {L : RuntimeLaws R}.
Implicit Types (w : World) (h : Heap) (g : ref) (o : Gadget).

Lemma Forall2_and_r {A B} (P : A → B → Prop) (Q : B → Prop) l k :
  Forall2 P l k → Forall Q k → Forall2 (λ x y, P x y ∧ Q y) l k.
Proof.
  induction 1 as [|x y l k Hxy Hl IH]; intros HQ; [constructor|].
  apply Forall_cons in HQ as [Hy HQ]. constructor; auto.
Qed.

(** X21: [getHistory] commutes with the round trip: for a reachable
    exporting store and any target store, the sorted history of the target
    after the import shows, position by position, the same action, snapshot
    (as JSON writes it) and timestamp as the sorted history of the exporting
    store. *)
Theorem round_trip_getHistory w secret iv w0 :
  reachable w →
  let w2 := (importEncrypted w0 (exportEncrypted w secret iv) secret).2 in
  entry_view (heap w2) <$> getHistory w2 = entry_view (heap w) <$> getHistory w.
Proof.
  intros Hwf%reachable_wf w2.
  pose proof (round_trip_history w secret iv w0 Hwf) as Hviews. fold w2 in Hviews.
  apply list_eq_Forall2 in Hviews. rewrite Forall2_fmap in Hviews.
  unfold getHistory. apply list_eq_Forall2. rewrite Forall2_fmap.
  apply Array_sort_Forall2; [|done].
  intros a b a' b' Hab%(f_equal snd) Hab'%(f_equal snd). simpl in *. congruence.
Qed.

(** X22: [totalValue] survives the round trip when [JSON] carries every
    stored price as it is, which it does unless the price is NaN, an
    infinity or negative zero: for a reachable exporting store with such
    prices and any target store, the total of the target after the import
    is the total of the exporting store. *)
Theorem round_trip_totalValue w secret iv w0 :
  reachable w →
  Forall (λ g, ∀ o, heap w !! g = Some o → json_number (price o) = price o)
         (map_values (gadgets (this w))) →
  totalValue (importEncrypted w0 (exportEncrypted w secret iv) secret).2 = totalValue w.
Proof.
  intros Hwf%reachable_wf Hexact.
  set (w2 := (importEncrypted w0 (exportEncrypted w secret iv) secret).2).
  destruct (round_trip_gadgets w secret iv w0 Hwf) as [_ Hsame].
  fold w2 in Hsame.
  apply list_eq_Forall2 in Hsame. rewrite Forall2_fmap in Hsame.
  unfold totalValue. apply total_Forall2.
  eapply Forall2_impl; [exact (Forall2_and_r _ _ _ _ Hsame Hexact)|].
  simpl. intros a b [Hab Hb]. rewrite Hab.
  destruct (heap w !! b) as [o|]; [|done]. simpl. f_equal. by apply Hb.
Qed.

End RoundTripQueries.

(** ** The further properties at work on the sample stores *)

Section MoreScenarios.
#[local] Existing Instance plain_runtime.
#[local] Existing Instance plain_laws.

Lemma example_world_valid : all_valid example_world.
Proof.
  intros k g Hin. change (gadgets (this example_world))
    with [(mac_key, 0); ("gadget-0f1e2d3c4b5a", 2)] in Hin.
  apply elem_of_cons in Hin as [[= -> ->]|Hin];
    [|apply list_elem_of_singleton in Hin as [= -> ->]];
    eexists; (split; [reflexivity|]);
    (split_and!; [done | done | eexists; split; reflexivity]).
Qed.

Lemma example_values g :
  g ∈ map_values (gadgets (this example_world)) → g = 0 ∨ g = 2.
Proof.
  change (map_values (gadgets (this example_world))) with [0; 2].
  intros [->|Hin]%elem_of_cons; [by left|].
  apply list_elem_of_singleton in Hin. by right.
Qed.

Example example_find :
  findGadgets lower example_world "APPLE" = [0] ∧
  findGadgets lower example_world "pro" = [0; 2] ∧
  findGadgets lower example_world "nokia" = [].
Proof. by split_and!. Qed.

Lemma addGadget_spec_witness :
  "Pixel" ≠ "" ∧ "Google" ≠ "" ∧ (799 <? 0)%float = false ∧
  ∃ g, (addGadget example_world "Pixel" "Google" 799 "aa" 5000 5001).1 = Return g ∧
       heap (addGadget example_world "Pixel" "Google" 799 "aa" 5000 5001).2 !! g =
       Some {| id := "gadget-aa"; name := "Pixel"; brand := "Google"; price := Num 799;
               addedAt := DateObj 5000 |}.
Proof.
  split_and!; [done | done | reflexivity |].
  destruct (addGadget_spec example_world "Pixel" "Google" 799 "aa" 5000 5001)
    as (g & copy & Hret & _ & Hnew & _); [done | done | reflexivity |].
  exists g. split; [exact Hret | exact Hnew].
Defined.

Lemma addGadget_same_id_replaces_witness :
  reachable example_world ∧
  map_get (generateId "a1b2c3d4e5f6") (gadgets (this example_world)) = Some 0 ∧
  (0 ∉ map_values
         (gadgets (this (addGadget example_world "Pixel" "Google" 799
                           "a1b2c3d4e5f6" 5000 5001).2))).
Proof.
  split_and!; [exact example_world_reachable | reflexivity |].
  apply (addGadget_same_id_replaces example_world "Pixel" "Google" 799
           "a1b2c3d4e5f6" 5000 5001 0 example_world_reachable);
    [done | done | reflexivity | reflexivity].
Defined.

Lemma add_then_delete_witness :
  (generateId "aa" ∉ map_keys (gadgets (this example_world))) ∧
  gadgets (this (deleteGadget
                   (addGadget example_world "Pixel" "Google" 799 "aa" 5000 5001).2
                   (generateId "aa") 6000).2)
  = gadgets (this example_world).
Proof.
  assert (generateId "aa" ∉ map_keys (gadgets (this example_world))) as Hfresh.
  { apply map_get_None_keys. reflexivity. }
  split; [exact Hfresh|].
  apply (add_then_delete example_world "Pixel" "Google" 799 "aa" 5000 5001 6000);
    [done | done | reflexivity | exact Hfresh].
Defined.

Lemma deleted_key_is_gone_witness :
  reachable example_world ∧
  deleteGadget (deleteGadget example_world mac_key 4000).2 mac_key 5000
  = (false, (deleteGadget example_world mac_key 4000).2).
Proof.
  split; [exact example_world_reachable|].
  apply (deleted_key_is_gone example_world mac_key 4000 example_world_reachable).
Defined.

Lemma totalValue_addGadget_witness :
  reachable example_world ∧
  map_get (generateId "aa") (gadgets (this example_world)) = None ∧
  totalValue (addGadget example_world "Pixel" "Google" 799 "aa" 5000 5001).2
  = (totalValue example_world + 799)%float.
Proof.
  split_and!; [exact example_world_reachable | reflexivity |].
  apply (totalValue_addGadget example_world "Pixel" "Google" 799 "aa" 5000 5001
           example_world_reachable); [done | done | reflexivity | reflexivity].
Defined.

Lemma finite_prices_json_safe_witness :
  well_typed [] None ∧ Forall finite_op example_ops ∧ json_safe example_world = true.
Proof.
  assert (well_typed [] None) as Hty by constructor.
  assert (Forall finite_op example_ops) as Hops.
  { repeat constructor. by intros p [= <-]. }
  split_and!; [exact Hty | exact Hops |].
  exact (finite_prices_json_safe [] None example_ops Hty (Forall_nil_2 _) Hops).
Defined.

Lemma totalValue_updateGadget_witness :
  reachable example_world ∧
  totalValue (updateGadget example_world mac_key
                {| patch_name := Some "MacBook Air"; patch_brand := None;
                   patch_price := Some (-1)%float |} 4000).2
  = totalValue example_world.
Proof.
  split; [exact example_world_reachable|].
  apply (totalValue_updateGadget example_world mac_key
           {| patch_name := Some "MacBook Air"; patch_brand := None;
              patch_price := Some (-1)%float |} 4000 example_world_reachable).
  right. exists (-1)%float. split; reflexivity.
Defined.

Lemma totalValue_nonneg_witness :
  all_valid example_world ∧ (0 <=? totalValue example_world)%float = true.
Proof.
  split; [exact example_world_valid|].
  exact (totalValue_nonneg example_world example_world_valid).
Defined.

Lemma getHistory_reverse_witness :
  StronglySorted (λ a b, (timestamp a < timestamp b)%Z) (history (this example_world)) ∧
  getHistory example_world = reverse (history (this example_world)).
Proof.
  assert (StronglySorted (λ a b, (timestamp a < timestamp b)%Z)
            (history (this example_world))) as Hsorted.
  { change (history (this example_world))
      with [ {| action := ADD; gadget := 1; timestamp := 1001 |};
             {| action := ADD; gadget := 3; timestamp := 2001 |};
             {| action := UPDATE; gadget := 5; timestamp := 3000 |} ].
    repeat constructor; simpl; lia. }
  split; [exact Hsorted|]. exact (getHistory_reverse example_world Hsorted).
Defined.

Lemma id_and_addedAt_never_change_witness :
  heap example_world !! 0 =
    Some {| id := mac_key; name := "MacBook Pro"; brand := "Apple"; price := Num 2499;
            addedAt := DateObj 1000 |} ∧
  ∃ o', heap (run example_world
                [Update mac_key {| patch_name := Some "MacBook Air"; patch_brand := None;
                                   patch_price := None |} 4000;
                 Import checked_export "k"]) !! 0 = Some o' ∧
        id o' = mac_key ∧ addedAt o' = DateObj 1000.
Proof.
  split; [reflexivity|].
  apply (id_and_addedAt_never_change example_world _ 0
           {| id := mac_key; name := "MacBook Pro"; brand := "Apple"; price := Num 2499;
              addedAt := DateObj 1000 |}).
  reflexivity.
Defined.

Lemma history_append_only_witness :
  reachable example_world ∧
  Forall no_import [Add "Pixel" "Google" 799 "aa" 5000 5001; Delete mac_key 6000] ∧
  history (this example_world) `prefix_of`
    history (this (run example_world
                     [Add "Pixel" "Google" 799 "aa" 5000 5001; Delete mac_key 6000])).
Proof.
  assert (Forall no_import
            [Add "Pixel" "Google" 799 "aa" 5000 5001; Delete mac_key 6000]) as Hops.
  { by repeat constructor. }
  split_and!; [exact example_world_reachable | exact Hops |].
  apply (history_append_only example_world _ example_world_reachable Hops).
Defined.

Lemma stored_under_own_id_witness :
  reachable example_world ∧ NoDup (map_keys (gadgets (this example_world))).
Proof.
  split; [exact example_world_reachable|].
  apply (stored_under_own_id example_world example_world_reachable).
Defined.

Lemma version_never_zero_witness :
  reachable example_world ∧ version (this example_world) ≠ 0%Z.
Proof.
  split; [exact example_world_reachable|].
  exact (version_never_zero example_world example_world_reachable).
Defined.

Lemma import_overwrites_target_witness :
  reachable example_world ∧
  map_keys (gadgets (this (importEncrypted other_world
                             (exportEncrypted example_world "s" "00") "s").2))
  = map_keys (gadgets (this example_world)).
Proof.
  split; [exact example_world_reachable|].
  apply (import_overwrites_target example_world "s" "00" other_world
           example_world_reachable).
Defined.

Lemma round_trip_listGadgets_witness :
  reachable example_world ∧
  ∃ l l2,
    listGadgets example_world = Return l ∧
    listGadgets (importEncrypted other_world
                   (exportEncrypted example_world "s" "00") "s").2 = Return l2 ∧
    (λ g, heap (importEncrypted other_world
                  (exportEncrypted example_world "s" "00") "s").2 !! g) <$> l2
    = (λ g, json_trip <$> heap example_world !! g) <$> l.
Proof.
  split; [exact example_world_reachable|].
  exact (round_trip_listGadgets example_world "s" "00" other_world
           example_world_reachable).
Defined.

Lemma round_trip_getHistory_witness :
  reachable example_world ∧
  entry_view (heap (importEncrypted other_world
                      (exportEncrypted example_world "s" "00") "s").2) <$>
    getHistory (importEncrypted other_world
                  (exportEncrypted example_world "s" "00") "s").2
  = entry_view (heap example_world) <$> getHistory example_world.
Proof.
  split; [exact example_world_reachable|].
  exact (round_trip_getHistory example_world "s" "00" other_world
           example_world_reachable).
Defined.

Lemma round_trip_totalValue_witness :
  reachable example_world ∧
  Forall (λ g, ∀ o, heap example_world !! g = Some o → json_number (price o) = price o)
         (map_values (gadgets (this example_world))) ∧
  totalValue (importEncrypted other_world
                (exportEncrypted example_world "s" "00") "s").2
  = totalValue example_world.
Proof.
  assert (Forall (λ g, ∀ o, heap example_world !! g = Some o →
                            json_number (price o) = price o)
                 (map_values (gadgets (this example_world)))) as Hexact.
  { repeat constructor; by intros o [= <-]. }
  split_and!; [exact example_world_reachable | exact Hexact |].
  exact (round_trip_totalValue example_world "s" "00" other_world
           example_world_reachable Hexact).
Defined.

Lemma importEncrypted_null_entry_half_done_witness :
  aes_decrypt (createKey "k") (bufferFromHex (enc_iv half_export)) (enc_data half_export)
    = Some (DocObject (Some [Some {| w_id := "g2"; w_name := "Pixel"; w_brand := "Google";
                                     w_price := Num 799%float; w_addedAt := 5%Z |}])
                      (Some [None]) (Some 1%Z)) ∧
  (importEncrypted example_world half_export "k").1 = Throw TypeError ∧
  map_keys (gadgets (this (importEncrypted example_world half_export "k").2)) = ["g2"] ∧
  history (this (importEncrypted example_world half_export "k").2)
  = history (this example_world).
Proof.
  split; [reflexivity|].
  destruct (importEncrypted_null_entry_half_done example_world half_export "k"
              (DocObject (Some [Some {| w_id := "g2"; w_name := "Pixel";
                                        w_brand := "Google"; w_price := Num 799%float;
                                        w_addedAt := 5%Z |}])
                         (Some [None]) (Some 1%Z))
              [{| w_id := "g2"; w_name := "Pixel"; w_brand := "Google";
                  w_price := Num 799%float; w_addedAt := 5%Z |}] [] (Some 1%Z))
    as (Hthrow & Hkeys & Hhistory & _);
    [reflexivity | reflexivity | apply NoDup_singleton |].
  split_and!; [exact Hthrow | exact Hkeys | exact Hhistory].
Defined.

Lemma findGadgets_empty_query_witness :
  lower "" = "" ∧ reachable example_world ∧
  findGadgets lower example_world "" = [0; 2].
Proof.
  split_and!; [reflexivity | exact example_world_reachable |].
  exact (findGadgets_empty_query lower example_world eq_refl example_world_reachable).
Defined.

Lemma listGadgets_newest_first_witness :
  reachable example_world ∧
  (∀ g, g ∈ map_values (gadgets (this example_world)) →
        (addedAt_ms (heap example_world) g < 5000)%Z) ∧
  ∃ g l,
    (addGadget example_world "Pixel" "Google" 799 "aa" 5000 5001).1 = Return g ∧
    listGadgets (addGadget example_world "Pixel" "Google" 799 "aa" 5000 5001).2
    = Return (g :: l).
Proof.
  assert (∀ g, g ∈ map_values (gadgets (this example_world)) →
               (addedAt_ms (heap example_world) g < 5000)%Z) as Hlater.
  { intros g [->| ->]%example_values; reflexivity. }
  split_and!; [exact example_world_reachable | exact Hlater |].
  apply (listGadgets_newest_first example_world "Pixel" "Google" 799 "aa" 5000 5001
           example_world_reachable); [done | done | reflexivity | exact Hlater].
Defined.

Lemma importEncrypted_early_failure_witness :
  (importEncrypted example_world checked_export "not-k").1 = Throw DecipherError ∧
  DecipherError ≠ TypeError ∧
  (importEncrypted example_world checked_export "not-k").2 = example_world.
Proof.
  split_and!; [reflexivity | discriminate |].
  apply (importEncrypted_early_failure example_world checked_export "not-k"
           DecipherError); [reflexivity | discriminate].
Defined.

Lemma updateGadget_price_only_rejected_witness :
  is_Some (map_get mac_key (gadgets (this example_world))) ∧
  ((-1) <? 0)%float = true ∧
  updateGadget example_world mac_key
    {| patch_name := None; patch_brand := None; patch_price := Some (-1)%float |} 4000
  = (Throw (Error "Price cannot be negative."), example_world).
Proof.
  assert (is_Some (map_get mac_key (gadgets (this example_world)))) as Hkey.
  { by exists 0. }
  split_and!; [exact Hkey | reflexivity |].
  apply (updateGadget_price_only_rejected example_world mac_key (-1) 4000 Hkey).
  reflexivity.
Defined.

End MoreScenarios.
